(** * synk.ai backend: upload-and-track API

    A shallow embedding of [main.py] and [schemas.py]: the document store
    the handlers talk to, the request handlers [waitlist_signup],
    [upload_video] and [get_job], and the background pipeline runner
    [fake_ai_processing], followed by the properties of the job state
    machine. *)

From stdpp Require Import gmap strings list fin_maps pretty relations.
From Stdlib Require Import ZArith Ascii String.

Open Scope string_scope.
Open Scope Z_scope.

(** ** Values, documents and collections *)

(** MongoDB's [ObjectId], identified with its hexadecimal rendering, so
    that Python's [str] on it is the identity on the payload. *)
Definition ObjectId := string.

(** The Python values that are stored in documents. *)
Inductive value :=
| VNone
| VStr (s : string)
| VInt (n : Z)
| VBool (b : bool)
| VList (l : list string)
| VTime (t : Z)            (* a [datetime], in milliseconds *)
| VOid (o : ObjectId).

#[global] Instance value_eq_dec : EqDecision value.
Proof. solve_decision. Defined.

(** A stored document: the store's own [_id], always present, and the
    remaining fields. *)
Record document := Doc { _id : ObjectId; fields : gmap string value }.

#[global] Instance document_eq_dec : EqDecision document.
Proof. solve_decision. Defined.

(** A collection is the list of its documents in natural (insertion)
    order; the database handle [db] maps collection names to collections.
    [coll db name] is [db[name]]; a collection that was never written to
    is empty. *)
Definition coll (db : gmap string (list document)) (name : string) : list document :=
  default [] (db !! name).

(** [d[k]] for a stored document, [None] standing for [KeyError]. *)
Definition get (d : document) (k : string) : option value :=
  if decide (k = "_id") then Some (VOid (_id d)) else fields d !! k.

(** A query filter [{k1: v1, ...}]: every listed field equals its value. *)
Definition matches (flt : list (string * value)) (d : document) : bool :=
  forallb (fun kv => bool_decide (get d kv.1 = Some kv.2)) flt.

(** The update operator [{"$set": {k1: v1, ...}}]. *)
Definition apply_set (upd : list (string * value)) (d : document) : document :=
  Doc (_id d) (foldl (fun m kv => <[kv.1 := kv.2]> m) (fields d) upd).

(** [find_one]: the first document, in natural order, that matches. *)
Fixpoint find_first (p : document → bool) (c : list document) : option document :=
  match c with
  | [] => None
  | d :: c' => if p d then Some d else find_first p c'
  end.

(** [update_one]: the first matching document is updated, nothing happens
    when none matches. *)
Fixpoint update_first (p : document → bool) (f : document → document)
    (c : list document) : list document :=
  match c with
  | [] => []
  | d :: c' => if p d then f d :: c' else d :: update_first p f c'
  end.

Definition find_one (name : string) (flt : list (string * value))
    (db : gmap string (list document)) : option document :=
  find_first (matches flt) (coll db name).

Definition update_one (name : string) (flt upd : list (string * value))
    (db : gmap string (list document)) : gmap string (list document) :=
  alter (update_first (matches flt) (apply_set upd)) name db.

Definition insert_one (name : string) (oid : ObjectId) (data : gmap string value)
    (db : gmap string (list document)) : gmap string (list document) :=
  <[name := (coll db name ++ [Doc oid data])%list]> db.

(** ** Exceptions *)

Inductive exn :=
| HTTPException (status_code : Z) (detail : string)
| TypeError (msg : string)
| ValidationError (msg : string)
| OSError (msg : string)
| PyMongoError (msg : string).

#[global] Instance exn_eq_dec : EqDecision exn.
Proof. solve_decision. Defined.

(** Python's [str(e)]; for [HTTPException] the framework prints the
    status code before the detail. *)
Definition str (e : exn) : string :=
  match e with
  | HTTPException c d => pretty c +:+ ": " +:+ d
  | TypeError m | ValidationError m | OSError m | PyMongoError m => m
  end.

(** The outcome of a handler: the JSON body it returns, or the exception
    that leaves it. *)
Inductive result (A : Type) :=
| Ok (a : A)
| Raise (e : exn).
Arguments Ok {A} a.
Arguments Raise {A} e.


(** ** The process state and the handler monad *)

(** The program counter of one background run of [fake_ai_processing]:
    every constructor is the point just before one effect of the body. *)
Inductive pc :=
| Loop (rest : list (string * Z))
    (* head of the [for]; [Loop []] is the completion update after it *)
| Found (oid : ObjectId) (step : string) (prog : Z) (rest : list (string * Z))
    (* inside the step update: [find_one(...)["_id"]] is evaluated,
       [update_one] is not yet called *)
| Sleeping (rest : list (string * Z))     (* before [sleep(0.6)] *)
| Except (e : exn)                        (* entering the [except] clause *)
| Returned                                (* the function returned *)
| Raised (e : exn).                       (* the [except] clause itself raised *)

(** A scheduled background task: the arguments given to [add_task] and
    how far the run has come. *)
Record task := Task { task_input : string; task_pc : pc }.

(** What the process can see and change: the database, the upload
    directory, the wall clock (milliseconds) and the background tasks,
    keyed by the job identifier they were scheduled with. *)
Record world := World {
  db : gmap string (list document);
  files : gmap string (list Byte.byte);
  clock : Z;
  tasks : gmap string task
}.

Definition set_db (f : gmap string (list document) → gmap string (list document))
    (w : world) : world :=
  World (f (db w)) (files w) (clock w) (tasks w).
Definition set_files (f : gmap string (list Byte.byte) → gmap string (list Byte.byte))
    (w : world) : world :=
  World (db w) (f (files w)) (clock w) (tasks w).
Definition set_clock (f : Z → Z) (w : world) : world :=
  World (db w) (files w) (f (clock w)) (tasks w).
Definition set_tasks (f : gmap string task → gmap string task) (w : world) : world :=
  World (db w) (files w) (clock w) (f (tasks w)).

(** Handlers run in a state-and-exception monad over the world. *)
Definition M (A : Type) : Type := world → result A * world.

Definition ret {A} (a : A) : M A := fun w => (Ok a, w).
Definition raise {A} (e : exn) : M A := fun w => (Raise e, w).
Definition bind {A B} (m : M A) (k : A → M B) : M B :=
  fun w => match m w with
           | (Ok a, w') => k a w'
           | (Raise e, w') => (Raise e, w')
           end.
(** [try: body except Exception as e: handler e] *)
Definition try_except {A} (body : M A) (handler : exn → M A) : M A :=
  fun w => match body w with
           | (Ok a, w') => (Ok a, w')
           | (Raise e, w') => handler e w'
           end.

Notation "'let!' x ':=' m 'in' k" := (bind m (fun x => k))
  (at level 10, x pattern, m at level 100, k at level 200).

(** An operation of the environment (database driver, file system) either
    takes effect or raises without effect; which one is the environment's
    choice, passed in as [fault]. *)
Definition fallible {A} (fault : option exn) (op : M A) : M A :=
  match fault with
  | Some e => raise e
  | None => op
  end.

(** ** schemas.py *)

(** Pydantic's [EmailStr] is checked by a validator that is not part of
    the sources. It is a parameter of everything that builds a schema
    object: a function [EmailStr] from the string given to the
    normalised address that is stored, or to the validation error the
    constructor raises. Nothing is assumed of it. *)
Definition nonempty (s : string) : bool :=
  match s with EmptyString => false | _ => true end.

(** A stand-in for the validator, only used to run the examples: it
    takes a string with an [@] as it is and refuses a string without
    one. *)
Fixpoint has_at (s : string) : bool :=
  match s with
  | EmptyString => false
  | String c s' => bool_decide (c = "@"%char) || has_at s'
  end.

Definition example_validator (s : string) : result string :=
  if has_at s then Ok s
  else Raise (ValidationError "value is not a valid email address").

Definition of_opt (o : option string) : value :=
  match o with
  | Some s => VStr s
  | None => VNone
  end.

(** [class WaitlistUser]: the schema of the [waitlistuser] collection. *)
Record WaitlistUser := {
  wu_email : string;
  wu_name : option string;
  wu_source : option string
}.

Definition WaitlistUser_new (EmailStr : string → result string)
    (email : string) (name source : option string) : result WaitlistUser :=
  match EmailStr email with
  | Ok email' => Ok {| wu_email := email'; wu_name := name; wu_source := source |}
  | Raise e => Raise e
  end.

(** [class VideoJob]. *)
Record VideoJob := {
  vj_email : option string;
  vj_filename : string;
  vj_size_bytes : Z;
  vj_status : string;
  vj_progress : Z;
  vj_steps : list string;
  vj_current_step : option string;
  vj_render_url : option string;
  vj_error : option string
}.

Definition default_steps : list string :=
  ["analyze_content"; "detect_cuts"; "auto_captions"; "select_music";
   "insert_b_roll"; "color_and_export"].

(** An [Optional[EmailStr]] field: [None] passes as it is, a string goes
    through the validator. *)
Definition validate_optional (EmailStr : string → result string)
    (email : option string) : result (option string) :=
  match email with
  | None => Ok None
  | Some s =>
      match EmailStr s with
      | Ok s' => Ok (Some s')
      | Raise e => Raise e
      end
  end.

(** The constructor call [VideoJob(email=..., ..., current_step=...)] with
    the field validators: [email] is an [EmailStr] when given, [progress]
    lies in 0..100; the fields not passed take their defaults. *)
Definition VideoJob_new (EmailStr : string → result string)
    (email : option string) (filename : string) (size_bytes : Z)
    (status : string) (progress : Z) (current_step : option string) : result VideoJob :=
  match validate_optional EmailStr email with
  | Raise e => Raise e
  | Ok email' =>
      if negb (bool_decide (0 ≤ progress ≤ 100)) then
        Raise (ValidationError "progress out of range")
      else
        Ok {| vj_email := email'; vj_filename := filename; vj_size_bytes := size_bytes;
              vj_status := status; vj_progress := progress; vj_steps := default_steps;
              vj_current_step := current_step; vj_render_url := None; vj_error := None |}
  end.

Definition model_dump (job : VideoJob) : gmap string value :=
  list_to_map
    [("email", of_opt (vj_email job));
     ("filename", VStr (vj_filename job));
     ("size_bytes", VInt (vj_size_bytes job));
     ("status", VStr (vj_status job));
     ("progress", VInt (vj_progress job));
     ("steps", VList (vj_steps job));
     ("current_step", of_opt (vj_current_step job));
     ("render_url", of_opt (vj_render_url job));
     ("error", of_opt (vj_error job))].

(** ** database.py *)

(** Modelled from the spec: the module [database] ([db],
    [create_document]) is not part of the sources. The Job Store
    "supports create, point lookup, and partial field update"; creation
    persists the given fields as one new record under a fresh native
    identifier [oid] and returns that identifier as a string. *)
Definition create_document (collection_name : string) (data : gmap string value)
    (oid : ObjectId) (fault : option exn) : M string :=
  fallible fault
    (fun w => (Ok oid, set_db (insert_one collection_name oid data) w)).

(** ** main.py *)

(** [class WaitlistPayload]: the request body of the waitlist endpoint,
    every field a plain string. *)
Record WaitlistPayload := {
  email : string;
  name : option string;
  source : option string
}.

(** [payload.dict()] *)
Definition dict (payload : WaitlistPayload) : gmap string value :=
  list_to_map
    [("email", VStr (email payload));
     ("name", of_opt (name payload));
     ("source", of_opt (source payload))].

Definition waitlist_signup (payload : WaitlistPayload)
    (oid : ObjectId) (fault : option exn) : M (list (string * value)) :=
  try_except
    (let! doc_id := create_document "waitlistuser" (dict payload) oid fault in
     ret [("ok", VBool true); ("id", VStr doc_id)])
    (fun e => raise (HTTPException 500 (str e))).

Definition UPLOAD_DIR : string := "uploads".
Definition OUTPUT_DIR : string := "renders".

(** [datetime.utcnow()] and [sleep(0.6)]. *)
Definition utcnow (w : world) : Z := clock w.
Definition sleep (ms : Z) (w : world) : world := set_clock (fun t => t + ms) w.

(** The step table of [fake_ai_processing]. *)
Definition steps : list (string * Z) :=
  [("analyze_content", 15);
   ("detect_cuts", 30);
   ("auto_captions", 45);
   ("select_music", 60);
   ("insert_b_roll", 80);
   ("color_and_export", 100)].

(** What one effect of the run did, as seen from outside. *)
Inductive label :=
| LFindOne (c : string) (flt : list (string * value)) (r : option document)
| LUpdateOne (c : string) (flt upd : list (string * value))
| LSleep (ms : Z)
| LRaise (e : exn).

(** One effect of [fake_ai_processing(job_id, input_path)] from program
    point [p]: the new program point and world, or [None] when the run is
    over. [fault] is what the database driver does with this one
    operation. *)
Definition runner_step (job_id input_path : string) (fault : option exn)
    (p : pc) (w : world) : option (label * pc * world) :=
  match p with
  | Loop ((step, prog) :: rest) =>
      (* db["videojob"].find_one({"job_id": job_id})["_id"] *)
      match fault with
      | Some e => Some (LRaise e, Except e, w)
      | None =>
          let flt := [("job_id", VStr job_id)] in
          match find_one "videojob" flt (db w) with
          | Some d => Some (LFindOne "videojob" flt (Some d), Found (_id d) step prog rest, w)
          | None =>
              Some (LFindOne "videojob" flt None,
                    Except (TypeError "'NoneType' object is not subscriptable"), w)
          end
      end
  | Found oid step prog rest =>
      (* db["videojob"].update_one({"_id": ...}, {"$set": {...}}) *)
      match fault with
      | Some e => Some (LRaise e, Except e, w)
      | None =>
          let flt := [("_id", VOid oid)] in
          let upd := [("status", VStr "processing"); ("current_step", VStr step);
                      ("progress", VInt prog); ("updated_at", VTime (utcnow w))] in
          Some (LUpdateOne "videojob" flt upd, Sleeping rest,
                set_db (update_one "videojob" flt upd) w)
      end
  | Sleeping rest =>
      Some (LSleep 600, Loop rest, sleep 600 w)
  | Loop [] =>
      let render_url := "/api/demo/render/" +:+ job_id +:+ ".mp4" in
      match fault with
      | Some e => Some (LRaise e, Except e, w)
      | None =>
          let flt := [("job_id", VStr job_id)] in
          let upd := [("status", VStr "completed"); ("render_url", VStr render_url);
                      ("updated_at", VTime (utcnow w))] in
          Some (LUpdateOne "videojob" flt upd, Returned,
                set_db (update_one "videojob" flt upd) w)
      end
  | Except e =>
      match fault with
      | Some e' => Some (LRaise e', Raised e', w)
      | None =>
          let flt := [("job_id", VStr job_id)] in
          let upd := [("status", VStr "failed"); ("error", VStr (str e))] in
          Some (LUpdateOne "videojob" flt upd, Returned,
                set_db (update_one "videojob" flt upd) w)
      end
  | Returned | Raised _ => None
  end.

(** Effects left before the run is over, at most. *)
Definition pc_fuel (p : pc) : nat :=
  match p with
  | Loop rest => 3 * List.length rest + 2
  | Found _ _ _ rest => 3 * List.length rest + 4
  | Sleeping rest => 3 * List.length rest + 3
  | Except _ => 1
  | Returned | Raised _ => 0
  end.

(** An uninterrupted run of at most [fuel] effects; [faults] lists what
    the driver does with each of them in turn (nothing once the list is
    used up). The labels come out in execution order. *)
Fixpoint run (fuel : nat) (job_id input_path : string) (faults : list (option exn))
    (p : pc) (w : world) : list label * pc * world :=
  match fuel with
  | O => ([], p, w)
  | S fuel' =>
      match runner_step job_id input_path (default None (head faults)) p w with
      | None => ([], p, w)
      | Some (l, p', w') =>
          let '(ls, pf, wf) := run fuel' job_id input_path (tail faults) p' w' in
          (l :: ls, pf, wf)
      end
  end.

(** A whole call of [fake_ai_processing(job_id, input_path)]. *)
Definition fake_ai_processing (job_id input_path : string) (faults : list (option exn))
    (w : world) : list label * pc * world :=
  run (pc_fuel (Loop steps)) job_id input_path faults (Loop steps) w.

(** The uploaded file as the handler uses it. *)
Record UploadFile := { filename : string; content : list Byte.byte }.

(** [with open(in_path, "wb") as f: f.write(...)] and [os.path.getsize]. *)
Definition write_file (path : string) (data : list Byte.byte) (fault : option exn) : M unit :=
  fallible fault (fun w => (Ok tt, set_files (insert path data) w)).

Definition getsize (path : string) : M Z :=
  fun w => match files w !! path with
           | Some data => (Ok (Z.of_nat (List.length data)), w)
           | None => (Raise (OSError "No such file or directory"), w)
           end.

(** [background_tasks.add_task(fake_ai_processing, job_id, in_path)] *)
Definition add_task (job_id in_path : string) : M unit :=
  fun w => (Ok tt, set_tasks (insert job_id (Task in_path (Loop steps))) w).

Definition lift {A} (r : result A) : M A := fun w => (r, w).

(** [upload_video]; [EmailStr] is the validator behind the [VideoJob]
    schema, [uuid] the value of [uuid4()], [oid] the identifier the store
    gives the new record. *)
Definition upload_video (EmailStr : string → result string)
    (file : UploadFile) (email : option string)
    (uuid : string) (oid : ObjectId) (fs_fault db_fault : option exn)
    : M (list (string * value)) :=
  try_except
    (let job_id := uuid in
     let filename := job_id +:+ "_" +:+ filename file in
     let in_path := UPLOAD_DIR +:+ "/" +:+ filename in
     let! _ := write_file in_path (content file) fs_fault in
     let! size := getsize in_path in
     let! job := lift (VideoJob_new EmailStr email filename size "queued" 0
                         (Some "analyze_content")) in
     let job_dict := <["job_id" := VStr job_id]> (model_dump job) in
     let! _ := create_document "videojob" job_dict oid db_fault in
     let! _ := add_task job_id in_path in
     ret [("ok", VBool true); ("job_id", VStr job_id)])
    (fun e => raise (HTTPException 500 (str e))).

(** [get_job]; the body it returns is the stored record with [_id]
    turned into a string. *)
Definition get_job (job_id : string) (fault : option exn) : M (gmap string value) :=
  try_except
    (let! job := fallible fault
                   (fun w => (Ok (find_one "videojob" [("job_id", VStr job_id)] (db w)), w)) in
     match job with
     | None => raise (HTTPException 404 "Job not found")
     | Some job => ret (<["_id" := VStr (_id job)]> (fields job))
     end)
    (fun e => raise (HTTPException 500 (str e))).

Definition get_demo_render (name : string) : M (list (string * value)) :=
  let demo_url := "https://cdn.coverr.co/videos/coverr-northern-lights-6960/1080p.mp4" in
  ret [("url", VStr demo_url)].

(** ** The running system *)

(** The job identifiers of the stored records. *)
Definition job_key (d : document) : option value := fields d !! "job_id".

(** [uuid4()] and the store's identifier generator return values that are
    not in use. *)
Definition fresh_job_id (uuid : string) (w : world) : Prop :=
  (Some (VStr uuid) ∉ job_key <$> coll (db w) "videojob") ∧ tasks w !! uuid = None.

Definition fresh_oid (collection_name : string) (oid : ObjectId) (w : world) : Prop :=
  oid ∉ _id <$> coll (db w) collection_name.

(** One atomic step of the process: a request served, one effect of one
    background run, or time passing. *)
Inductive sys_step : world → world → Prop :=
| step_upload EmailStr file email uuid oid fs_fault db_fault w r w' :
    fresh_job_id uuid w →
    fresh_oid "videojob" oid w →
    upload_video EmailStr file email uuid oid fs_fault db_fault w = (r, w') →
    sys_step w w'
| step_waitlist payload oid fault w r w' :
    fresh_oid "waitlistuser" oid w →
    waitlist_signup payload oid fault w = (r, w') →
    sys_step w w'
| step_get_job job_id fault w r w' :
    get_job job_id fault w = (r, w') →
    sys_step w w'
| step_demo name w r w' :
    get_demo_render name w = (r, w') →
    sys_step w w'
| step_runner job_id fault t w l p' w' :
    tasks w !! job_id = Some t →
    runner_step job_id (task_input t) fault (task_pc t) w = Some (l, p', w') →
    sys_step w (set_tasks (insert job_id (Task (task_input t) p')) w')
| step_tick d w :
    0 ≤ d →
    sys_step w (set_clock (fun t => t + d) w).

(** The process starts with an empty store and nothing scheduled. *)
Definition init (t0 : Z) : world := World ∅ ∅ t0 ∅.

Definition reachable (w : world) : Prop := ∃ t0, rtc sys_step (init t0) w.

(** The records of the job collection and their fields of interest. *)
Definition jobs (w : world) : list document := coll (db w) "videojob".

Definition status (d : document) : option value := fields d !! "status".
Definition progress (d : document) : option value := fields d !! "progress".
Definition current_step (d : document) : option value := fields d !! "current_step".

(** A field is set when it is present and not [None]. *)
Definition is_set (d : document) (k : string) : bool :=
  match fields d !! k with
  | None | Some VNone => false
  | Some _ => true
  end.

Definition terminal (d : document) : Prop :=
  status d = Some (VStr "completed") ∨ status d = Some (VStr "failed").

(** The database writes among the effects of a run, in order: the filter
    and the [$set] document of every [update_one] that took effect. *)
Definition writes (ls : list label) : list (list (string * value) * list (string * value)) :=
  omap (fun l => match l with LUpdateOne _ flt upd => Some (flt, upd) | _ => None end) ls.

(** Reading a job back right after its creation: the lookup returns the
    record as queued, at progress 0, on the first step, and the
    background run is scheduled and has not started. *)
Definition reads_back_queued (uuid : string) (w' : world) : Prop :=
  ∃ rec t,
    get_job uuid None w' = (Ok rec, w') ∧
    rec !! "job_id" = Some (VStr uuid) ∧
    rec !! "status" = Some (VStr "queued") ∧
    rec !! "progress" = Some (VInt 0) ∧
    rec !! "current_step" = Some (VStr "analyze_content") ∧
    tasks w' !! uuid = Some t ∧ task_pc t = Loop steps.

(** An email the [VideoJob] schema takes: none, or one the validator
    accepts. *)
Definition email_accepted (EmailStr : string → result string)
    (email : option string) : Prop :=
  ∃ email', validate_optional EmailStr email = Ok email'.


(** Sample inputs. *)
Definition clip : UploadFile :=
  {| filename := "clip.mp4"; content := [Byte.x00; Byte.x01; Byte.x02] |}.

(** The world after one successful upload into the empty store. *)
Definition w_uploaded : world :=
  (upload_video example_validator clip (Some "a@b.com") "j1" "oid1" None None (init 0)).2.


(** ** The invariant of the job state machine *)

(** The record of a job whose run has done the steps [pre] of the table
    and is not over: queued at progress 0 on the first step when [pre] is
    empty, otherwise processing at the last step of [pre] and its
    progress; in both cases without render locator and without error. *)
Definition progressed (pre : list (string * Z)) (d : document) : Prop :=
  match last pre with
  | None =>
      status d = Some (VStr "queued") ∧ progress d = Some (VInt 0) ∧
      current_step d = Some (VStr "analyze_content")
  | Some (step, prog) =>
      status d = Some (VStr "processing") ∧ progress d = Some (VInt prog) ∧
      current_step d = Some (VStr step)
  end ∧
  fields d !! "render_url" = Some VNone ∧ fields d !! "error" = Some VNone.

(** The record of a job whose run has returned. *)
Definition finished (d : document) : Prop :=
  (status d = Some (VStr "completed") ∧ progress d = Some (VInt 100) ∧
   is_set d "render_url" = true ∧ fields d !! "error" = Some VNone) ∨
  (status d = Some (VStr "failed") ∧
   is_set d "error" = true ∧ fields d !! "render_url" = Some VNone).

(** How the record of a job relates to the program point of its run. *)
Definition pc_doc (p : pc) (d : document) : Prop :=
  match p with
  | Loop rest | Sleeping rest =>
      ∃ pre, steps = (pre ++ rest)%list ∧ progressed pre d
  | Found oid step prog rest =>
      _id d = oid ∧ ∃ pre, steps = (pre ++ (step, prog) :: rest)%list ∧ progressed pre d
  | Except _ | Raised _ =>
      ∃ pre rest, steps = (pre ++ rest)%list ∧ progressed pre d
  | Returned => finished d
  end.

(** The invariant: store identifiers and job identifiers are unique,
    every job record belongs to exactly one scheduled run and agrees
    with its program point, and every run has its record. *)
Record inv (w : world) : Prop := {
  inv_ids : NoDup (_id <$> jobs w);
  inv_keys : NoDup (job_key <$> jobs w);
  inv_docs : ∀ d, d ∈ jobs w →
    ∃ j t, job_key d = Some (VStr j) ∧ tasks w !! j = Some t ∧
           pc_doc (task_pc t) d ∧
           fields d !! "steps" = Some (VList default_steps);
  inv_tasks : ∀ j t, tasks w !! j = Some t →
    ∃ d, d ∈ jobs w ∧ job_key d = Some (VStr j)
}.

(** The state of the system once the background run of job [j], if one
    is scheduled, has performed up to [fuel] further effects with no
    other step in between. *)
Definition sys_run (fuel : nat) (j : string) (faults : list (option exn)) (w : world) : world :=
  match tasks w !! j with
  | Some t =>
      let '(_, p', w') := run fuel j (task_input t) faults (task_pc t) w in
      set_tasks (insert j (Task (task_input t) p')) w'
  | None => w
  end.

(** The upload of [clip] followed by the first 17 effects of its run: the
    update of the last step is written, the completion update is not. *)
Definition w_last_step : world := sys_run 17 "j1" [] w_uploaded.

(** The same upload followed by the whole run. *)
Definition w_completed : world := sys_run 19 "j1" [] w_uploaded.

(** The same upload followed by a run in which the store raises at the
    completion update, its 19th effect, and the failure update goes
    through. *)
Definition w_failed_late : world :=
  sys_run 20 "j1" (replicate 18 None ++ [Some (PyMongoError "connection lost")])%list
    w_uploaded.

(** ** Notions for the further properties *)

(** The record [d] of a job after the writes of a run that starts at the
    head of the loop with [rest] to go, at time [now], and is not
    disturbed: every step update in turn, 600 ms apart, then the
    completion update. *)
Fixpoint after_steps (job_id : string) (now : Z) (rest : list (string * Z))
    (d : document) : document :=
  match rest with
  | [] =>
      apply_set [("status", VStr "completed");
                 ("render_url", VStr ("/api/demo/render/" +:+ job_id +:+ ".mp4"));
                 ("updated_at", VTime now)] d
  | (step, prog) :: rest' =>
      after_steps job_id (now + 600) rest'
        (apply_set [("status", VStr "processing"); ("current_step", VStr step);
                    ("progress", VInt prog); ("updated_at", VTime now)] d)
  end.

(** A handler outcome that is a body or an [HTTPException] with status
    500. *)
Definition is_500 {A} (r : result A) : Prop :=
  match r with
  | Ok _ => True
  | Raise e => ∃ detail, e = HTTPException 500 detail
  end.

(** The step and the progress a record shows are those of one row of the
    step table, or the first step at progress 0 as written at creation. *)
Definition on_table (d : document) : Prop :=
  ∃ step prog,
    current_step d = Some (VStr step) ∧ progress d = Some (VInt prog) ∧
    ((step, prog) = ("analyze_content", 0) ∨ (step, prog) ∈ steps).

(** Database writes left before the run is over, at most. *)
Definition pc_writes (p : pc) : nat :=
  match p with
  | Loop rest | Sleeping rest => List.length rest + 1
  | Found _ _ _ rest => List.length rest + 2
  | Except _ => 1
  | Returned | Raised _ => 0
  end.

(** The upload of [clip] followed by the first effect of its run, the
    lookup of the first step update; the write is the next effect. *)
Definition w_found : world := sys_run 1 "j1" [] w_uploaded.

(** The upload of [clip] followed by a run in which the store raises at
    the first lookup and again at the update of the [except] clause. *)
Definition w_raised : world :=
  sys_run 2 "j1" [Some (PyMongoError "connection lost"); Some (PyMongoError "still down")]
    w_uploaded.

(** The upload of [clip] followed by the first step's update, the sleep
    and a second lookup at which the store raises: the run is about to
    enter its [except] clause. *)
Definition w_except : world :=
  sys_run 4 "j1" [None; None; None; Some (PyMongoError "connection lost")] w_uploaded.

(** That state after a second upload, without email: two jobs, the run of
    the first about to write. *)
Definition w_two_jobs : world :=
  (upload_video example_validator clip None "j2" "oid2" None None w_found).2.

(** ** main.py: the diagnostic endpoint *)

(** Python strings are held as their UTF-8 bytes; [s[:n]] keeps the first
    [n] characters, that is, everything before the [n+1]-th byte that
    starts a character. *)
Definition is_continuation (c : ascii) : bool :=
  match c with
  | Ascii _ _ _ _ _ _ b6 b7 => b7 && negb b6
  end.

Fixpoint take_chars (n : nat) (s : string) : string :=
  match s with
  | EmptyString => EmptyString
  | String c s' =>
      if is_continuation c then String c (take_chars n s')
      else match n with
           | O => EmptyString
           | S n' => String c (take_chars n' s')
           end
  end.

(** The database handle as [test_database] uses it: its [name]
    attribute, when it has one, and what [list_collection_names()]
    does. *)
Record db_handle := {
  handle_name : option string;
  list_collection_names : result (list string)
}.

(** What [from database import db as _db] does: it raises [ImportError],
    raises something else, or binds [_db], possibly to [None]. *)
Inductive import_outcome :=
| ImportErrorRaised
| ImportRaised (e : exn)
| Imported (_db : option db_handle).

(** Python's truth value of [os.getenv(...)]. *)
Definition truthy (o : option string) : bool :=
  match o with
  | Some s => nonempty s
  | None => false
  end.

(** [test_database]; [env_url] and [env_name] are the values of the
    environment variables DATABASE_URL and DATABASE_NAME. *)
Definition test_database (imp : import_outcome) (env_url env_name : option string)
    : gmap string value :=
  let response : gmap string value :=
    list_to_map
      [("backend", VStr "✅ Running");
       ("database", VStr "❌ Not Available");
       ("database_url", VNone);
       ("database_name", VNone);
       ("connection_status", VStr "Not Connected");
       ("collections", VList [])] in
  let response :=
    match imp with
    | Imported (Some _db) =>
        let response := <["database" := VStr "✅ Available"]> response in
        let response := <["database_url" := VStr "✅ Configured"]> response in
        let response :=
          <["database_name" := VStr (default "✅ Connected" (handle_name _db))]> response in
        let response := <["connection_status" := VStr "Connected"]> response in
        match list_collection_names _db with
        | Ok collections =>
            let response := <["collections" := VList (take 10 collections)]> response in
            <["database" := VStr "✅ Connected & Working"]> response
        | Raise e =>
            <["database" :=
                VStr ("⚠️  Connected but Error: " +:+ take_chars 50 (str e))]> response
        end
    | Imported None =>
        <["database" := VStr "⚠️  Available but not initialized"]> response
    | ImportErrorRaised =>
        <["database" :=
            VStr "❌ Database module not found (run enable-database first)"]> response
    | ImportRaised e =>
        <["database" := VStr ("❌ Error: " +:+ take_chars 50 (str e))]> response
    end in
  let response :=
    <["database_url" := VStr (if truthy env_url then "✅ Set" else "❌ Not Set")]> response in
  <["database_name" := VStr (if truthy env_name then "✅ Set" else "❌ Not Set")]> response.

(** ** Proof automation *)

(** Closed membership facts about field names are decided by evaluation. *)
Ltac by_decide := apply (bool_decide_unpack _); vm_compute; reflexivity.

(** Field lookups in a record after a [$set] with known field names. *)
Ltac fields_simpl :=
  unfold status, progress, current_step, is_set, job_key;
  cbn [apply_set foldl fields fst snd];
  repeat (rewrite lookup_insert_eq || rewrite lookup_insert_ne by discriminate).

(** ** The store operations *)

Lemma coll_insert_one_eq name oid data db0 :
  coll (insert_one name oid data db0) name = (coll db0 name ++ [Doc oid data])%list.
Proof. unfold coll at 1, insert_one. by rewrite lookup_insert_eq. Qed.

Lemma coll_insert_one_ne name name' oid data db0 :
  name ≠ name' → coll (insert_one name oid data db0) name' = coll db0 name'.
Proof. intros Hne. unfold coll, insert_one. by rewrite lookup_insert_ne. Qed.

Lemma coll_update_one name flt upd db0 :
  coll (update_one name flt upd db0) name =
  update_first (matches flt) (apply_set upd) (coll db0 name).
Proof.
  unfold coll, update_one. rewrite lookup_alter_eq.
  by destruct (db0 !! name).
Qed.

Lemma find_first_Some p c d :
  find_first p c = Some d → d ∈ c ∧ p d = true.
Proof.
  induction c as [|x c IH]; simpl; [done|].
  destruct (p x) eqn:Hp.
  - intros [= <-]. split; [left | done].
  - intros H. destruct (IH H). split; [by right | done].
Qed.

Lemma find_first_None p c :
  find_first p c = None ↔ ∀ d, d ∈ c → p d = false.
Proof.
  induction c as [|x c IH]; simpl.
  - split; [intros _ d Hd; inversion Hd | done].
  - destruct (p x) eqn:Hp.
    + split; [done|]. intros H. specialize (H x (list_elem_of_here _ _)). congruence.
    + rewrite IH. split.
      * intros H d Hd. inversion Hd; subst; auto.
      * intros H d Hd. apply H. by right.
Qed.

Lemma update_first_no_match p f c :
  find_first p c = None → update_first p f c = c.
Proof.
  induction c as [|x c IH]; simpl; [done|].
  destruct (p x); [done|]. intros H. by rewrite IH.
Qed.

Lemma update_one_no_match name flt upd db0 :
  find_one name flt db0 = None → update_one name flt upd db0 = db0.
Proof.
  unfold find_one, update_one, coll. intros H.
  apply alter_id. intros c Hc. rewrite Hc in H. simpl in H.
  by apply update_first_no_match.
Qed.

Lemma set_db_id w : set_db (fun m => m) w = w.
Proof. by destruct w. Qed.

(** ** Lookup of a job *)

(** C2. A lookup of a job identifier that has no record is answered, by
    the code, with status 500 and detail ["404: Job not found"]: the 404
    raised inside the [try] is caught by its own [except Exception] and
    wrapped. The claim asks for NotFound (404); the code never returns
    it. *)
Theorem get_job_missing_is_500 job_id w :
  find_one "videojob" [("job_id", VStr job_id)] (db w) = None →
  get_job job_id None w =
    (Raise (HTTPException 500 (str (HTTPException 404 "Job not found"))), w) ∧
  str (HTTPException 404 "Job not found") = "404: Job not found".
Proof.
  intros H. split; [|by vm_compute].
  unfold get_job, try_except, bind, fallible. by rewrite H.
Qed.

Lemma get_job_missing_is_500_witness :
  find_one "videojob" [("job_id", VStr "j2")] (db w_uploaded) = None ∧
  get_job "j2" None w_uploaded =
    (Raise (HTTPException 500 (str (HTTPException 404 "Job not found"))), w_uploaded) ∧
  str (HTTPException 404 "Job not found") = "404: Job not found".
Proof.
  split; [by vm_compute|].
  apply (get_job_missing_is_500 "j2" w_uploaded). by vm_compute.
Defined.

(** ** The waitlist *)

(** C4. The waitlist endpoint takes its body as [WaitlistPayload], whose
    [email] is a plain string, and never builds the [WaitlistUser] schema
    that carries the [EmailStr] check: the malformed address
    ["not-an-email"], which [WaitlistUser] refuses with the validator's
    error whenever the validator refuses it, is answered with success and
    stored. *)
Theorem waitlist_signup_stores_malformed_email :
  let payload := {| email := "not-an-email"; name := None; source := Some "marketing" |} in
  let '(r, w') := waitlist_signup payload "oid1" None (init 0) in
  (∀ (EmailStr : string → result string) e,
     EmailStr "not-an-email" = Raise e →
     WaitlistUser_new EmailStr "not-an-email" None (Some "marketing") = Raise e) ∧
  r = Ok [("ok", VBool true); ("id", VStr "oid1")] ∧
  coll (db w') "waitlistuser" = [Doc "oid1" (dict payload)] ∧
  dict payload !! "email" = Some (VStr "not-an-email").
Proof.
  vm_compute. split; [|repeat split; reflexivity].
  intros EmailStr e ->. reflexivity.
Qed.

Lemma waitlist_signup_stores_malformed_email_witness :
  ∃ e, example_validator "not-an-email" = Raise e ∧
       WaitlistUser_new example_validator "not-an-email" None (Some "marketing") = Raise e.
Proof.
  eexists. split; [by vm_compute|].
  pose proof waitlist_signup_stores_malformed_email as H.
  vm_compute in H. destruct H as [H _].
  apply (H example_validator). by vm_compute.
Defined.

(** ** Single runs of the pipeline *)

Lemma run_S fuel job_id input_path faults p w :
  run (S fuel) job_id input_path faults p w =
  match runner_step job_id input_path (default None (head faults)) p w with
  | None => ([], p, w)
  | Some (l, p', w') =>
      let '(ls, pf, wf) := run fuel job_id input_path (tail faults) p' w' in
      (l :: ls, pf, wf)
  end.
Proof. reflexivity. Qed.

Lemma run_Returned fuel job_id input_path faults w :
  run fuel job_id input_path faults Returned w = ([], Returned, w).
Proof. by destruct fuel. Qed.

(** C9. A run for a job identifier that has no record: the first lookup
    finds nothing, the subscript on [None] raises, the [except] clause
    runs its update, which matches no document, and the function
    returns. The world at the end is the world at the start: no record
    created, no error recorded. *)
Theorem fake_ai_processing_unknown_job job_id input_path w :
  find_one "videojob" [("job_id", VStr job_id)] (db w) = None →
  fake_ai_processing job_id input_path [] w =
    ([LFindOne "videojob" [("job_id", VStr job_id)] None;
      LUpdateOne "videojob" [("job_id", VStr job_id)]
        [("status", VStr "failed");
         ("error", VStr "'NoneType' object is not subscriptable")]],
     Returned, w).
Proof.
  intros H. unfold fake_ai_processing.
  change (pc_fuel (Loop steps)) with 20%nat.
  rewrite run_S. unfold steps at 1. cbn [runner_step head tail default].
  rewrite H. rewrite run_S. cbn [runner_step head tail default str].
  rewrite run_Returned. do 2 f_equal.
  unfold set_db. rewrite (update_one_no_match _ _ _ _ H).
  by destruct w.
Qed.

Lemma fake_ai_processing_unknown_job_witness :
  find_one "videojob" [("job_id", VStr "j2")] (db w_uploaded) = None ∧
  fake_ai_processing "j2" "uploads/j2_clip.mp4" [] w_uploaded =
    ([LFindOne "videojob" [("job_id", VStr "j2")] None;
      LUpdateOne "videojob" [("job_id", VStr "j2")]
        [("status", VStr "failed");
         ("error", VStr "'NoneType' object is not subscriptable")]],
     Returned, w_uploaded).
Proof.
  split; [by vm_compute|].
  apply (fake_ai_processing_unknown_job "j2" "uploads/j2_clip.mp4" w_uploaded).
  by vm_compute.
Defined.

(** ** Upload *)

Lemma find_first_app p c1 c2 :
  find_first p (c1 ++ c2)%list =
  match find_first p c1 with
  | Some d => Some d
  | None => find_first p c2
  end.
Proof.
  induction c1 as [|x c1 IH]; simpl; [done|].
  by destruct (p x).
Qed.

Lemma matches_job_id job_id d :
  matches [("job_id", VStr job_id)] d = true ↔ job_key d = Some (VStr job_id).
Proof.
  unfold matches, job_key, get. simpl. rewrite andb_true_r.
  by rewrite bool_decide_eq_true.
Qed.

Lemma matches_oid oid d :
  matches [("_id", VOid oid)] d = true ↔ _id d = oid.
Proof.
  unfold matches, get. simpl. rewrite andb_true_r, bool_decide_eq_true.
  split; [by intros [= ->] | by intros ->].
Qed.

Lemma find_one_fresh job_id (c : list document) :
  Some (VStr job_id) ∉ job_key <$> c →
  find_first (matches [("job_id", VStr job_id)]) c = None.
Proof.
  intros Hfresh. apply find_first_None. intros d Hd.
  destruct (matches _ d) eqn:Hm; [|done].
  apply matches_job_id in Hm. destruct Hfresh.
  rewrite <- Hm. by apply list_elem_of_fmap_2.
Qed.

(** What a call of [upload_video] that answers ok has done: nothing
    failed, the schema took the email, and the world has the file, one
    new queued record at the end of the job collection and the task. *)
Lemma upload_video_Ok EmailStr file email uuid oid fs_fault db_fault w body w' :
  upload_video EmailStr file email uuid oid fs_fault db_fault w = (Ok body, w') →
  let name := uuid +:+ "_" +:+ filename file in
  let path := UPLOAD_DIR +:+ "/" +:+ name in
  ∃ email' data,
    fs_fault = None ∧ db_fault = None ∧
    validate_optional EmailStr email = Ok email' ∧
    body = [("ok", VBool true); ("job_id", VStr uuid)] ∧
    w' = World (insert_one "videojob" oid data (db w))
               (<[path := content file]> (files w))
               (clock w)
               (<[uuid := Task path (Loop steps)]> (tasks w)) ∧
    data !! "job_id" = Some (VStr uuid) ∧
    data !! "email" = Some (of_opt email') ∧
    data !! "filename" = Some (VStr name) ∧
    data !! "size_bytes" = Some (VInt (Z.of_nat (List.length (content file)))) ∧
    data !! "status" = Some (VStr "queued") ∧
    data !! "progress" = Some (VInt 0) ∧
    data !! "current_step" = Some (VStr "analyze_content") ∧
    data !! "render_url" = Some VNone ∧
    data !! "error" = Some VNone ∧
    data !! "steps" = Some (VList default_steps).
Proof.
  unfold upload_video, try_except, bind, write_file, fallible, getsize, lift,
    create_document, add_task, ret, raise, VideoJob_new.
  destruct fs_fault as [e|]; [done|].
  cbn [files set_files]. rewrite lookup_insert_eq.
  destruct (validate_optional EmailStr email) as [email'|e] eqn:Hmail; [|done].
  simpl negb. cbn iota.
  destruct db_fault as [e|]; [done|].
  intros [= <- <-]. cbv zeta. exists email'. eexists.
  split; [done|]. split; [done|]. split; [done|]. split; [done|].
  split; [reflexivity|].
  split; [apply lookup_insert_eq|].
  rewrite !lookup_insert_ne by discriminate.
  repeat split; by vm_compute.
Qed.

(** When nothing fails and the schema takes the email, the call answers
    ok. *)
Lemma upload_video_succeeds EmailStr file email uuid oid w :
  email_accepted EmailStr email →
  ∃ w', upload_video EmailStr file email uuid oid None None w =
          (Ok [("ok", VBool true); ("job_id", VStr uuid)], w').
Proof.
  intros [email' Hmail].
  unfold upload_video, try_except, bind, write_file, fallible, getsize, lift,
    create_document, add_task, ret, raise, VideoJob_new.
  cbn [files set_files]. rewrite lookup_insert_eq, Hmail. simpl negb. cbn iota.
  by eexists.
Qed.

Lemma reads_back_after_upload EmailStr file email uuid oid fs_fault db_fault w body w' :
  fresh_job_id uuid w →
  upload_video EmailStr file email uuid oid fs_fault db_fault w = (Ok body, w') →
  reads_back_queued uuid w'.
Proof.
  intros [Hfresh _] Hup.
  destruct (upload_video_Ok _ _ _ _ _ _ _ _ _ _ Hup)
    as (email' & data & _ & _ & _ & _ & -> & Hjob & _ & _ & _ & Hst & Hpr & Hcur & _).
  unfold reads_back_queued, get_job, try_except, bind, fallible, ret, find_one.
  cbn [db tasks].
  rewrite coll_insert_one_eq, find_first_app, (find_one_fresh _ _ Hfresh).
  cbn [find_first].
  assert (matches [("job_id", VStr uuid)] (Doc oid data) = true) as ->
    by by apply matches_job_id.
  eexists _, _. split; [reflexivity|]. cbn [_id fields].
  rewrite !lookup_insert_ne by discriminate.
  split; [done|]. split; [done|]. split; [done|]. split; [done|].
  split; [apply lookup_insert_eq | reflexivity].
Qed.

(** C7. Whatever the file, the email, the validator and the faults of the
    file system and the store, for a fresh job identifier: whenever the
    upload creates the job, that is, answers ok, reading the record back
    right after it yields status queued, progress 0 and current step
    analyze_content, with the background run scheduled and not started.
    And the upload does create the job whenever nothing fails and the
    email is absent or taken by the validator. *)
Theorem upload_then_get_job EmailStr file email uuid oid fs_fault db_fault w :
  fresh_job_id uuid w →
  (∀ body w',
     upload_video EmailStr file email uuid oid fs_fault db_fault w = (Ok body, w') →
     reads_back_queued uuid w') ∧
  (fs_fault = None → db_fault = None → email_accepted EmailStr email →
   ∃ body w', upload_video EmailStr file email uuid oid fs_fault db_fault w = (Ok body, w')).
Proof.
  intros Hfresh. split.
  - intros body w' Hup. by eapply reads_back_after_upload.
  - intros -> -> Hmail.
    destruct (upload_video_succeeds EmailStr file email uuid oid w Hmail) as [w' Hup].
    eauto.
Qed.

Lemma upload_then_get_job_witness :
  fresh_job_id "j1" (init 0) ∧ reads_back_queued "j1" w_uploaded.
Proof.
  assert (Hfresh : fresh_job_id "j1" (init 0)).
  { split; [|done]. vm_compute. intros H. inversion H. }
  split; [exact Hfresh|].
  eapply (proj1 (upload_then_get_job example_validator clip (Some "a@b.com")
                   "j1" "oid1" None None (init 0) Hfresh)).
  by vm_compute.
Defined.

Lemma fields_apply_set_ne upd d k :
  k ∉ upd.*1 → fields (apply_set upd d) !! k = fields d !! k.
Proof.
  unfold apply_set. cbn [fields]. generalize (fields d) as m.
  induction upd as [|[k' v] upd IH]; intros m Hk; simpl; [done|].
  rewrite IH.
  - apply lookup_insert_ne. intros ->. apply Hk. left.
  - intros H. apply Hk. by right.
Qed.




(** C3. A run in which the store fails once, at the lookup of the second
    step, 600 ms after the first step's update at time 0. The [except]
    clause writes status failed and the error text and nothing else: no
    further step update follows and the first step's progress stays, but
    [updated_at] is not part of the failure update, so the record still
    shows the time of the first step's update (0) while the clock reads
    600. The step updates and the completion update all set
    [updated_at]; the failure update is the one write that does not. *)
Theorem failure_update_skips_updated_at :
  let '(ls, p, w') :=
    fake_ai_processing "j1" "uploads/j1_clip.mp4"
      [None; None; None; Some (PyMongoError "connection lost")] w_uploaded in
  p = Returned ∧
  writes ls =
    [([("_id", VOid "oid1")],
      [("status", VStr "processing"); ("current_step", VStr "analyze_content");
       ("progress", VInt 15); ("updated_at", VTime 0)]);
     ([("job_id", VStr "j1")],
      [("status", VStr "failed"); ("error", VStr "connection lost")])] ∧
  clock w' = 600 ∧
  ∃ d, jobs w' = [d] ∧
    status d = Some (VStr "failed") ∧
    fields d !! "error" = Some (VStr "connection lost") ∧
    progress d = Some (VInt 15) ∧
    fields d !! "updated_at" = Some (VTime 0).
Proof.
  vm_compute. do 3 (split; [reflexivity|]).
  eexists. split; [reflexivity|]. repeat split; reflexivity.
Qed.

(** ** The invariant is inductive *)

Lemma NoDup_fmap_eq {A B} (f : A → B) (c : list A) x y :
  NoDup (f <$> c) → x ∈ c → y ∈ c → f x = f y → x = y.
Proof.
  induction c as [|a c IH]; intros Hnd Hx Hy Hf; [inversion Hx|].
  rewrite fmap_cons in Hnd. apply NoDup_cons in Hnd as [Hna Hnd].
  apply elem_of_cons in Hx as [->|Hx]; apply elem_of_cons in Hy as [->|Hy].
  - done.
  - destruct Hna. rewrite Hf. by apply list_elem_of_fmap_2.
  - destruct Hna. rewrite <- Hf. by apply list_elem_of_fmap_2.
  - by apply IH.
Qed.

(** When the documents are told apart by a key and the filter pins the
    key, updating the first match is updating every match. *)
Lemma update_first_fmap {K} (key : document → K) p f c :
  NoDup (key <$> c) →
  (∀ d1 d2, d1 ∈ c → d2 ∈ c → p d1 = true → p d2 = true → key d1 = key d2) →
  update_first p f c = (fun d => if p d then f d else d) <$> c.
Proof.
  induction c as [|x c IH]; intros Hnd Hkey; [done|].
  rewrite fmap_cons in Hnd. apply NoDup_cons in Hnd as [Hna Hnd].
  cbn [update_first fmap list_fmap]. destruct (p x) eqn:Hx.
  - f_equal. symmetry. etransitivity; [|apply list_fmap_id].
    apply list_fmap_ext. intros i d Hd%list_elem_of_lookup_2. simpl.
    destruct (p d) eqn:Hpd; [|done].
    destruct Hna. rewrite (Hkey x d); [by apply list_elem_of_fmap_2 | left | by right | done..].
  - f_equal. apply IH; [done|].
    intros d1 d2 H1 H2. apply Hkey; by right.
Qed.

Lemma update_first_lookup p f c i d :
  c !! i = Some d →
  ∃ d', update_first p f c !! i = Some d' ∧ (d' = d ∨ (d' = f d ∧ p d = true)).
Proof.
  revert i. induction c as [|x c IH]; intros i Hi; [done|].
  cbn [update_first]. destruct (p x) eqn:Hx.
  - destruct i as [|i]; simpl in *.
    + injection Hi as ->. eauto.
    + eauto.
  - destruct i as [|i]; simpl in *; eauto.
Qed.

(** The common shape of a step of the run for job [j]: its task moves to
    [p'] and the job records change by [g], which leaves identifiers,
    the step list and every other job's record alone. *)
Lemma inv_update w w' j t p' g :
  inv w →
  tasks w !! j = Some t →
  jobs w' = g <$> jobs w →
  tasks w' = <[j := Task (task_input t) p']> (tasks w) →
  (∀ d, _id (g d) = _id d) →
  (∀ d, job_key (g d) = job_key d) →
  (∀ d, fields (g d) !! "steps" = fields d !! "steps") →
  (∀ d, d ∈ jobs w → job_key d ≠ Some (VStr j) → g d = d) →
  (∀ d, d ∈ jobs w → job_key d = Some (VStr j) →
        pc_doc (task_pc t) d → pc_doc p' (g d)) →
  inv w'.
Proof.
  intros [Hids Hkeys Hdocs Htasks] Ht Hjobs Htasks' Hid Hkey Hsteps Hother Hmine.
  split.
  - rewrite Hjobs, <- list_fmap_compose.
    rewrite (list_fmap_ext (_id ∘ g) _id); [done|]. intros; apply Hid.
  - rewrite Hjobs, <- list_fmap_compose.
    rewrite (list_fmap_ext (job_key ∘ g) job_key); [done|]. intros; apply Hkey.
  - intros d'. rewrite Hjobs, list_elem_of_fmap. intros (d & -> & Hd).
    destruct (Hdocs d Hd) as (j0 & t0 & Hk & Ht0 & Hpc & Hst).
    destruct (decide (j0 = j)) as [->|Hne].
    + exists j, (Task (task_input t) p').
      rewrite Hkey, Hsteps, Htasks', lookup_insert_eq.
      repeat split; try done. apply Hmine; [done..|congruence].
    + exists j0, t0. rewrite Hother; [|done|congruence].
      rewrite Htasks', lookup_insert_ne by done. done.
  - intros j1 t1. rewrite Htasks'. intros Hj1.
    assert (∃ t0, tasks w !! j1 = Some t0) as [t0 Ht0].
    { destruct (decide (j = j1)) as [<-|Hne]; [eauto|].
      rewrite lookup_insert_ne in Hj1 by done. eauto. }
    destruct (Htasks j1 t0 Ht0) as (d & Hd & Hk).
    exists (g d). rewrite Hkey, Hjobs. split; [|done].
    by apply list_elem_of_fmap_2.
Qed.

(** A step that moves the program point without writing. *)
Lemma inv_pc_change w w' j t p' :
  inv w →
  tasks w !! j = Some t →
  db w' = db w →
  tasks w' = tasks w →
  (∀ d, d ∈ jobs w → job_key d = Some (VStr j) →
        pc_doc (task_pc t) d → pc_doc p' d) →
  inv (set_tasks (insert j (Task (task_input t) p')) w').
Proof.
  intros Hinv Ht Hdb Htasks Hmine.
  apply (inv_update w _ j t p' id); try done.
  - unfold jobs. cbn [set_tasks db]. by rewrite Hdb, list_fmap_id.
  - cbn [set_tasks tasks]. by rewrite Htasks.
Qed.

(** A step that writes with [update_one] through a filter that can only
    select the record of job [j], and does select it. *)
Lemma inv_set w j t p' flt upd :
  inv w →
  tasks w !! j = Some t →
  (∀ d, d ∈ jobs w → matches flt d = true → job_key d = Some (VStr j)) →
  "job_id" ∉ upd.*1 →
  "steps" ∉ upd.*1 →
  (∀ d, d ∈ jobs w → job_key d = Some (VStr j) → pc_doc (task_pc t) d →
        matches flt d = true ∧ pc_doc p' (apply_set upd d)) →
  inv (set_tasks (insert j (Task (task_input t) p'))
         (set_db (update_one "videojob" flt upd) w)).
Proof.
  intros Hinv Ht Hflt Hjob Hsteps Hmine.
  apply (inv_update w _ j t p'
           (fun d => if matches flt d then apply_set upd d else d)); try done.
  - unfold jobs. cbn [set_tasks set_db db]. rewrite coll_update_one.
    apply (update_first_fmap job_key); [apply Hinv|].
    intros d1 d2 H1 H2 Hm1 Hm2.
    by rewrite (Hflt d1), (Hflt d2).
  - intros d. by destruct (matches flt d).
  - intros d. destruct (matches flt d); [|done].
    unfold job_key. by apply fields_apply_set_ne.
  - intros d. destruct (matches flt d); [|done].
    by apply fields_apply_set_ne.
  - intros d Hd Hk. destruct (matches flt d) eqn:Hm; [|done].
    destruct Hk. by apply Hflt.
  - intros d Hd Hk Hpc. destruct (Hmine d Hd Hk Hpc) as [-> ?]. done.
Qed.

Lemma inv_my_doc w j t :
  inv w → tasks w !! j = Some t →
  ∃ d, d ∈ jobs w ∧ job_key d = Some (VStr j) ∧ pc_doc (task_pc t) d.
Proof.
  intros Hinv Ht. destruct (inv_tasks w Hinv j t Ht) as (d & Hd & Hk).
  destruct (inv_docs w Hinv d Hd) as (j0 & t0 & Hk0 & Ht0 & Hpc & _).
  assert (j0 = j) as -> by congruence.
  assert (t0 = t) as -> by congruence. eauto.
Qed.

Lemma progressed_nonterminal pre d :
  progressed pre d →
  fields d !! "render_url" = Some VNone ∧ fields d !! "error" = Some VNone.
Proof. by intros [_ ?]. Qed.

Lemma inv_runner_step w j t fault l p' w' :
  inv w →
  tasks w !! j = Some t →
  runner_step j (task_input t) fault (task_pc t) w = Some (l, p', w') →
  inv (set_tasks (insert j (Task (task_input t) p')) w').
Proof.
  intros Hinv Ht Hstep.
  destruct (task_pc t) as [[|[step prog] rest]|oid step prog rest|rest|e| |e] eqn:Hpc;
    cbn [runner_step] in Hstep.
  - (* the completion update *)
    destruct fault as [e|]; injection Hstep as <- <- <-.
    + apply (inv_pc_change w); try done. rewrite Hpc.
      intros d _ _ (pre & Hpre & Hprog). by exists pre, [].
    + apply inv_set; try done; try by_decide.
      * intros d _. apply matches_job_id.
      * rewrite Hpc. intros d _ Hk (pre & Hpre & Hprog).
        split; [by apply matches_job_id|].
        rewrite app_nil_r in Hpre. subst pre.
        destruct Hprog as ((Hst & Hpr & _) & Hr & He).
        left. revert Hpr He. fields_simpl. done.
  - (* the lookup of a step update *)
    destruct fault as [e|].
    { injection Hstep as <- <- <-. apply (inv_pc_change w); try done. rewrite Hpc.
      intros d _ _ (pre & Hpre & Hprog). by exists pre, ((step, prog) :: rest). }
    destruct (find_one _ _ (db w)) as [d0|] eqn:Hfind; injection Hstep as <- <- <-.
    + apply (inv_pc_change w); try done. rewrite Hpc.
      intros d Hd Hk Hrun. split; [|done]. f_equal.
      apply find_first_Some in Hfind as [Hd0 Hm0]. apply matches_job_id in Hm0.
      apply (NoDup_fmap_eq job_key (jobs w)); [apply Hinv|done..|congruence].
    + apply (inv_pc_change w); try done. rewrite Hpc.
      intros d _ _ (pre & Hpre & Hprog). by exists pre, ((step, prog) :: rest).
  - (* the write of a step update *)
    destruct fault as [e|]; injection Hstep as <- <- <-.
    { apply (inv_pc_change w); try done. rewrite Hpc.
      intros d _ _ (_ & pre & Hpre & Hprog). by exists pre, ((step, prog) :: rest). }
    destruct (inv_my_doc w j t Hinv Ht) as (dj & Hdj & Hkj & Hpcj).
    rewrite Hpc in Hpcj. destruct Hpcj as [Hoid _].
    apply inv_set; try done; try by_decide.
    + intros d Hd Hm. apply matches_oid in Hm.
      rewrite (NoDup_fmap_eq _id (jobs w) d dj); [done|apply Hinv|done..|congruence].
    + rewrite Hpc. intros d _ Hk (Hid & pre & Hpre & Hprog).
      split; [by apply matches_oid|].
      exists (pre ++ [(step, prog)])%list. rewrite <- app_assoc. split; [done|].
      apply progressed_nonterminal in Hprog as [Hr He].
      unfold progressed. rewrite last_snoc.
      revert Hr He. fields_simpl. done.
  - (* sleep *)
    injection Hstep as <- <- <-. apply (inv_pc_change w); try done. by rewrite Hpc.
  - (* the failure update *)
    destruct fault as [e'|]; injection Hstep as <- <- <-.
    + apply (inv_pc_change w); try done. by rewrite Hpc.
    + apply inv_set; try done; try by_decide.
      * intros d _. apply matches_job_id.
      * rewrite Hpc. intros d _ Hk (pre & rest & Hpre & Hprog).
        split; [by apply matches_job_id|].
        apply progressed_nonterminal in Hprog as [Hr He].
        right. revert Hr. fields_simpl. done.
  - done.
  - done.
Qed.

Lemma inv_same w w' :
  jobs w' = jobs w → tasks w' = tasks w → inv w → inv w'.
Proof.
  intros Hjobs Htasks [Hids Hkeys Hdocs Htask].
  split; rewrite ?Hjobs; try done.
  - intros d Hd. rewrite Htasks. by apply Hdocs.
  - intros j t. rewrite Htasks. apply Htask.
Qed.

(** What a call of [upload_video] does to the store and the schedule:
    nothing, or one new queued record at the end of the job collection
    and one new task at the head of the loop. *)
Lemma upload_video_effect EmailStr file email uuid oid fs_fault db_fault w r w' :
  upload_video EmailStr file email uuid oid fs_fault db_fault w = (r, w') →
  (db w' = db w ∧ tasks w' = tasks w) ∨
  (∃ data t,
     db w' = insert_one "videojob" oid data (db w) ∧
     tasks w' = <[uuid := t]> (tasks w) ∧
     task_pc t = Loop steps ∧
     data !! "job_id" = Some (VStr uuid) ∧
     data !! "status" = Some (VStr "queued") ∧
     data !! "progress" = Some (VInt 0) ∧
     data !! "current_step" = Some (VStr "analyze_content") ∧
     data !! "render_url" = Some VNone ∧
     data !! "error" = Some VNone ∧
     data !! "steps" = Some (VList default_steps)).
Proof.
  unfold upload_video, try_except, bind, write_file, fallible, getsize, lift,
    create_document, add_task, ret, raise, VideoJob_new.
  destruct fs_fault as [e|]; [intros [= <- <-]; by left|].
  cbn [files set_files]. rewrite lookup_insert_eq.
  destruct (validate_optional EmailStr email) as [email'|e]; simpl negb; cbn iota;
    [|intros [= <- <-]; by left].
  destruct db_fault as [e|]; [intros [= <- <-]; by left|].
  intros [= <- <-]. right. eexists _, _.
  cbn [db tasks set_db set_tasks set_files].
  split; [reflexivity|]. split; [reflexivity|]. split; [reflexivity|].
  split; [apply lookup_insert_eq|].
  rewrite !lookup_insert_ne by discriminate.
  repeat split; by vm_compute.
Qed.

Lemma waitlist_signup_effect payload oid fault w r w' :
  waitlist_signup payload oid fault w = (r, w') →
  jobs w' = jobs w ∧ tasks w' = tasks w.
Proof.
  unfold waitlist_signup, try_except, bind, create_document, fallible, ret, raise.
  destruct fault as [e|]; intros [= <- <-]; [done|].
  unfold jobs. cbn [db set_db tasks]. by rewrite coll_insert_one_ne.
Qed.

Lemma get_job_effect job_id fault w r w' :
  get_job job_id fault w = (r, w') → w' = w.
Proof.
  unfold get_job, try_except, bind, fallible, ret, raise.
  destruct fault as [e|]; [by intros [= <- <-]|].
  destruct (find_one _ _ _); by intros [= <- <-].
Qed.

Lemma inv_init t0 : inv (init t0).
Proof.
  split; unfold jobs, coll; cbn.
  - constructor.
  - constructor.
  - intros d Hd. inversion Hd.
  - intros j t Hj. by rewrite lookup_empty in Hj.
Qed.

Lemma inv_upload EmailStr file email uuid oid fs_fault db_fault w r w' :
  inv w →
  fresh_job_id uuid w →
  fresh_oid "videojob" oid w →
  upload_video EmailStr file email uuid oid fs_fault db_fault w = (r, w') →
  inv w'.
Proof.
  intros Hinv [Hfresh Hnotask] Hoid Hup.
  apply upload_video_effect in Hup
    as [[Hdb Htasks]|(data & t & Hdb & Htasks & Hpc & Hjob & Hst & Hpr & Hcur & Hr & He & Hsteps)].
  { apply (inv_same w); [unfold jobs; by rewrite Hdb | done..]. }
  assert (Hjobs : jobs w' = (jobs w ++ [Doc oid data])%list).
  { unfold jobs. by rewrite Hdb, coll_insert_one_eq. }
  destruct Hinv as [Hids Hkeys Hdocs Htask].
  split; rewrite ?Hjobs, ?fmap_app.
  - apply NoDup_app. split; [done|]. split; [|apply NoDup_singleton].
    intros x Hx Hin%list_elem_of_singleton. by subst.
  - apply NoDup_app. split; [done|]. split; [|apply NoDup_singleton].
    intros x Hx Hin%list_elem_of_singleton. subst x.
    apply Hfresh. by rewrite <- Hjob.
  - intros d [Hd|Hd%list_elem_of_singleton]%elem_of_app.
    + destruct (Hdocs d Hd) as (j0 & t0 & Hk & Ht0 & Hrest).
      exists j0, t0. rewrite Htasks, lookup_insert_ne; [done|].
      intros <-. apply Hfresh. rewrite <- Hk. by apply list_elem_of_fmap_2.
    + subst d. exists uuid, t. unfold job_key. cbn [fields].
      rewrite Htasks, lookup_insert_eq, Hpc.
      repeat split; try done. by exists [].
  - intros j1 t1. rewrite Htasks. intros Hj1.
    destruct (decide (uuid = j1)) as [<-|Hne].
    + exists (Doc oid data). split; [|done]. apply elem_of_app. right. left.
    + rewrite lookup_insert_ne in Hj1 by done.
      destruct (Htask j1 t1 Hj1) as (d & Hd & Hk).
      exists d. split; [|done]. apply elem_of_app. by left.
Qed.

Lemma inv_step w w' : inv w → sys_step w w' → inv w'.
Proof.
  intros Hinv Hstep. destruct Hstep.
  - by eapply inv_upload.
  - destruct (waitlist_signup_effect _ _ _ _ _ _ H0). by apply (inv_same w).
  - by rewrite (get_job_effect _ _ _ _ _ H).
  - by injection H as _ <-.
  - by eapply inv_runner_step.
  - by apply (inv_same w).
Qed.

(** Every reachable state satisfies the invariant. *)
Lemma inv_reachable w : reachable w → inv w.
Proof.
  intros [t0 Hrtc]. revert w Hrtc. apply rtc_ind_r.
  - apply inv_init.
  - intros y z _ Hstep Hy. by apply (inv_step y).
Qed.

(** ** Reachable states by running *)

Lemma runner_step_set_tasks f j path fault p w :
  runner_step j path fault p (set_tasks f w) =
  match runner_step j path fault p w with
  | Some (l, p', w') => Some (l, p', set_tasks f w')
  | None => None
  end.
Proof.
  destruct p as [[|[step prog] rest]|oid step prog rest|rest|e| |e], fault as [e'|];
    cbn [runner_step set_tasks db]; try done.
  by destruct (find_one _ _ _).
Qed.

Lemma run_set_tasks f fuel j path :
  ∀ faults p w,
    run fuel j path faults p (set_tasks f w) =
    let '(ls, p', w') := run fuel j path faults p w in (ls, p', set_tasks f w').
Proof.
  induction fuel as [|fuel IH]; intros faults p w; [done|].
  rewrite !run_S, runner_step_set_tasks.
  destruct (runner_step _ _ _ _ w) as [[[l p1] w1]|]; [|done].
  rewrite IH. by destruct (run fuel j path (tail faults) p1 w1) as [[ls p'] w'].
Qed.

Lemma set_tasks_insert_id j t w :
  tasks w !! j = Some t → set_tasks (insert j t) w = w.
Proof. intros H. destruct w. unfold set_tasks. cbn in *. by rewrite insert_id. Qed.

Lemma run_rtc fuel j path :
  ∀ faults p w ls p' w',
    tasks w !! j = Some (Task path p) →
    run fuel j path faults p w = (ls, p', w') →
    rtc sys_step w (set_tasks (insert j (Task path p')) w').
Proof.
  induction fuel as [|fuel IH]; intros faults p w ls p' w' Ht Hrun.
  - injection Hrun as <- <- <-. by rewrite set_tasks_insert_id.
  - rewrite run_S in Hrun.
    destruct (runner_step _ _ _ _ w) as [[[l p1] w1]|] eqn:Hstep.
    + destruct (run fuel j path (tail faults) p1 w1) as [[ls1 p2] w2] eqn:Hrun1.
      injection Hrun as <- <- <-.
      eapply rtc_l.
      { by apply (step_runner j (default None (head faults)) (Task path p) w l p1 w1). }
      replace (set_tasks (insert j (Task path p2)) w2)
        with (set_tasks (insert j (Task path p2))
                (set_tasks (insert j (Task path p1)) w2)).
      * eapply IH; [|by rewrite run_set_tasks, Hrun1].
        cbn [set_tasks tasks]. apply lookup_insert_eq.
      * destruct w2. unfold set_tasks. cbn. by rewrite insert_insert_eq.
    + injection Hrun as <- <- <-. by rewrite set_tasks_insert_id.
Qed.

Lemma sys_run_rtc fuel j faults w : rtc sys_step w (sys_run fuel j faults w).
Proof.
  unfold sys_run. destruct (tasks w !! j) as [[path p]|] eqn:Ht; [|done].
  cbn [task_input task_pc].
  destruct (run fuel j path faults p w) as [[ls p'] w'] eqn:Hrun.
  by eapply run_rtc.
Qed.

Lemma reachable_uploaded : reachable w_uploaded.
Proof.
  exists 0. apply rtc_once.
  eapply (step_upload example_validator clip (Some "a@b.com") "j1" "oid1" None None (init 0)).
  - split; [|done]. vm_compute. intros H. inversion H.
  - vm_compute. intros H. inversion H.
  - apply surjective_pairing.
Qed.

Lemma reachable_sys_run fuel j faults w :
  reachable w → reachable (sys_run fuel j faults w).
Proof.
  intros [t0 H]. exists t0. etransitivity; [done|]. apply sys_run_rtc.
Qed.

(** ** Properties of every observable job record *)

Lemma pc_doc_shape p d :
  pc_doc p d →
  (∃ pre rest, steps = (pre ++ rest)%list ∧ progressed pre d) ∨ finished d.
Proof.
  destruct p as [rest|oid step prog rest|rest|e| |e]; cbn [pc_doc].
  - intros (pre & ? & ?). left. by exists pre, rest.
  - intros (_ & pre & ? & ?). left. by exists pre, ((step, prog) :: rest).
  - intros (pre & ? & ?). left. by exists pre, rest.
  - intros (pre & rest & ? & ?). left. by exists pre, rest.
  - by right.
  - intros (pre & rest & ? & ?). left. by exists pre, rest.
Qed.

Lemma reachable_doc_shape w d :
  reachable w → d ∈ jobs w →
  (∃ pre rest, steps = (pre ++ rest)%list ∧ progressed pre d) ∨ finished d.
Proof.
  intros Hw Hd.
  destruct (inv_docs w (inv_reachable w Hw) d Hd) as (j & t & _ & _ & Hpc & _).
  by eapply pc_doc_shape.
Qed.

(** The status a record shows while its run is not over. *)
Lemma progressed_status pre d :
  progressed pre d →
  (status d = Some (VStr "queued") ∧ progress d = Some (VInt 0) ∧ pre = []) ∨
  (status d = Some (VStr "processing") ∧
   ∃ step prog, last pre = Some (step, prog) ∧
     current_step d = Some (VStr step) ∧ progress d = Some (VInt prog)).
Proof.
  unfold progressed. destruct (last pre) as [[step prog]|] eqn:Hlast.
  - intros ((? & ? & ?) & _). right. split; [done|]. by exists step, prog.
  - intros ((? & ? & ?) & _). left. apply last_None in Hlast. done.
Qed.

(** C6. In every reachable state every job record has one of the four
    statuses; when the status is completed or failed exactly one of
    [render_url] and [error] is set, and while it is queued or processing
    neither is. *)
Theorem render_url_xor_error w d :
  reachable w → d ∈ jobs w →
  (status d = Some (VStr "queued") ∨ status d = Some (VStr "processing") ∨
   status d = Some (VStr "completed") ∨ status d = Some (VStr "failed")) ∧
  (terminal d → xorb (is_set d "render_url") (is_set d "error") = true) ∧
  (status d = Some (VStr "queued") ∨ status d = Some (VStr "processing") →
   is_set d "render_url" = false ∧ is_set d "error" = false).
Proof.
  intros Hw Hd.
  destruct (reachable_doc_shape w d Hw Hd) as [(pre & rest & _ & Hprog)|Hfin].
  - pose proof (progressed_nonterminal _ _ Hprog) as [Hr He].
    apply progressed_status in Hprog.
    unfold terminal, is_set. rewrite Hr, He.
    split; [|split].
    + destruct Hprog as [(-> & _)|(-> & _)]; auto.
    + destruct Hprog as [(-> & _)|(-> & _)]; by intros [|].
    + done.
  - unfold finished, terminal, is_set in *.
    destruct Hfin as [(-> & _ & Hr & He)|(-> & He & Hr)]; rewrite ?Hr, ?He.
    + split; [auto|]. split; [|by intros [|]].
      intros _. by destruct (fields d !! "render_url") as [[]|].
    + split; [auto|]. split; [|by intros [|]].
      intros _. by destruct (fields d !! "error") as [[]|].
Qed.

Lemma render_url_xor_error_witness :
  ∃ d, jobs w_completed = [d] ∧
    (status d = Some (VStr "queued") ∨ status d = Some (VStr "processing") ∨
     status d = Some (VStr "completed") ∨ status d = Some (VStr "failed")) ∧
    (terminal d → xorb (is_set d "render_url") (is_set d "error") = true) ∧
    (status d = Some (VStr "queued") ∨ status d = Some (VStr "processing") →
     is_set d "render_url" = false ∧ is_set d "error" = false).
Proof.
  eexists. split; [by vm_compute|].
  apply (render_url_xor_error w_completed).
  - apply reachable_sys_run, reachable_uploaded.
  - vm_compute. left.
Defined.

(** C5, counterexample. After the update of the last step and before the
    completion update (the run sleeps 600 ms in between) the record shows
    status processing at progress 100; and when the store raises at the
    completion update, the failure update leaves a failed record at
    progress 100. *)
Lemma processing_at_progress_100 :
  (reachable w_last_step ∧
   ∃ d, jobs w_last_step = [d] ∧
     status d = Some (VStr "processing") ∧
     progress d = Some (VInt 100) ∧
     ¬ (progress d = Some (VInt 100) ↔ status d = Some (VStr "completed"))) ∧
  (reachable w_failed_late ∧
   ∃ d, jobs w_failed_late = [d] ∧
     status d = Some (VStr "failed") ∧
     progress d = Some (VInt 100)).
Proof.
  split.
  - split; [apply reachable_sys_run, reachable_uploaded|].
    eexists. split; [by vm_compute|].
    split; [by vm_compute|]. split; [by vm_compute|].
    intros [H _]. specialize (H eq_refl). vm_compute in H. discriminate.
  - split; [apply reachable_sys_run, reachable_uploaded|].
    eexists. split; [by vm_compute|]. split; by vm_compute.
Qed.

(** ** What a step can change *)

(** A step of a run leaves the store alone or performs one [update_one]
    on the job collection that sets neither [steps] nor [job_id]. *)
Lemma runner_step_db j path fault p w l p' w' :
  runner_step j path fault p w = Some (l, p', w') →
  db w' = db w ∨
  ∃ flt upd, l = LUpdateOne "videojob" flt upd ∧
    db w' = update_one "videojob" flt upd (db w) ∧
    ("steps" ∉ upd.*1) ∧ ("job_id" ∉ upd.*1).
Proof.
  destruct p as [[|[step prog] rest]|oid step prog rest|rest|e| |e], fault as [e'|];
    cbn [runner_step]; try done;
    try (intros [= <- <- <-]; by left);
    try (intros [= <- <- <-]; right; eexists _, _; split; [reflexivity|];
         split; [reflexivity|]; split; by_decide).
  destruct (find_one _ _ _); intros [= <- <- <-]; by left.
Qed.

(** In a state that satisfies the invariant, the filter of a write of the
    run for job [j] selects no record but the one of [j], whose run is
    not over. *)
Lemma runner_step_target w j t fault flt upd p' w' :
  inv w →
  tasks w !! j = Some t →
  runner_step j (task_input t) fault (task_pc t) w =
    Some (LUpdateOne "videojob" flt upd, p', w') →
  ∀ d, d ∈ jobs w → matches flt d = true → ∃ pre, progressed pre d.
Proof.
  intros Hinv Ht Hstep d Hd Hm.
  destruct (inv_my_doc w j t Hinv Ht) as (dj & Hdj & Hkj & Hpcj).
  assert (d = dj) as ->.
  { destruct (task_pc t) as [[|[step prog] rest]|oid step prog rest|rest|e| |e],
      fault as [e'|]; cbn [runner_step] in Hstep; try done;
      try (destruct (find_one _ _ _); done);
      injection Hstep as <- <- <- <-.
    - apply matches_job_id in Hm.
      apply (NoDup_fmap_eq job_key (jobs w)); [apply Hinv|done..|congruence].
    - apply matches_oid in Hm. destruct Hpcj as [Hoid _].
      apply (NoDup_fmap_eq _id (jobs w)); [apply Hinv|done..|congruence].
    - apply matches_job_id in Hm.
      apply (NoDup_fmap_eq job_key (jobs w)); [apply Hinv|done..|congruence]. }
  destruct (task_pc t) as [rest|oid step prog rest|rest|e| |e]; cbn [pc_doc] in Hpcj.
  - destruct Hpcj as (pre & _ & ?). eauto.
  - destruct Hpcj as (_ & pre & _ & ?). eauto.
  - done.
  - destruct Hpcj as (pre & _ & _ & ?). eauto.
  - done.
  - done.
Qed.

Lemma progressed_not_terminal pre d : progressed pre d → ¬ terminal d.
Proof.
  unfold terminal. intros [(-> & _)|(-> & _)]%progressed_status [|]; done.
Qed.

(** C8. The statuses completed and failed are absorbing: from a reachable
    state, no step of the system (a request, an effect of a background
    run, time passing) changes a record whose status is completed or
    failed; the record stays where it is in the collection with every
    field as it was. *)
Theorem terminal_absorbing w w' i d :
  reachable w →
  sys_step w w' →
  jobs w !! i = Some d →
  terminal d →
  jobs w' !! i = Some d.
Proof.
  intros Hw Hstep Hi Hterm. pose proof (inv_reachable w Hw) as Hinv.
  destruct Hstep.
  - apply upload_video_effect in H1 as [[Hdb _]|(data & t & Hdb & _)].
    + unfold jobs. by rewrite Hdb.
    + unfold jobs. rewrite Hdb, coll_insert_one_eq.
      rewrite lookup_app_l; [done|]. by eapply lookup_lt_Some.
  - apply waitlist_signup_effect in H0 as [-> _]. done.
  - by rewrite (get_job_effect _ _ _ _ _ H).
  - by injection H as _ <-.
  - change (jobs w' !! i = Some d).
    destruct (runner_step_db _ _ _ _ _ _ _ _ H0) as [Hdb|(flt & upd & -> & Hdb & _)].
    + unfold jobs. by rewrite Hdb.
    + replace (jobs w') with (update_first (matches flt) (apply_set upd) (jobs w))
        by (unfold jobs; by rewrite Hdb, coll_update_one).
      destruct (update_first_lookup (matches flt) (apply_set upd) _ i d Hi)
        as (d' & -> & [->|[_ Hm]]); [done|].
      destruct (runner_step_target w job_id t fault flt upd p' w' Hinv H H0 d)
        as [pre Hprog]; [by eapply list_elem_of_lookup_2 | done |].
      by destruct (progressed_not_terminal pre d).
  - done.
Qed.

Lemma terminal_absorbing_witness :
  ∃ d, jobs w_completed !! 0%nat = Some d ∧ terminal d ∧
       jobs (upload_video example_validator clip None "j2" "oid2" None None
               w_completed).2 !! 0%nat = Some d.
Proof.
  eexists. split; [by vm_compute|]. split; [left; by vm_compute|].
  apply (terminal_absorbing w_completed
           (upload_video example_validator clip None "j2" "oid2" None None
              w_completed).2 0).
  - apply reachable_sys_run, reachable_uploaded.
  - apply (step_upload example_validator clip None "j2" "oid2" None None w_completed
             (upload_video example_validator clip None "j2" "oid2" None None
                w_completed).1).
    + split; [|by vm_compute]. vm_compute. intros H. inversion H as [|? ? ? H']. inversion H'.
    + vm_compute. intros H. inversion H as [|? ? ? H']. inversion H'.
    + apply surjective_pairing.
  - by vm_compute.
  - left. by vm_compute.
Defined.

(** C10. In every reachable state every job record carries the six step
    names, in order, in its [steps] field, and no step of the system
    changes the [steps] field of a record or removes the record. *)
Theorem steps_field_constant w :
  reachable w →
  (∀ d, d ∈ jobs w →
     fields d !! "steps" =
       Some (VList ["analyze_content"; "detect_cuts"; "auto_captions";
                    "select_music"; "insert_b_roll"; "color_and_export"])) ∧
  (∀ w' i d, sys_step w w' → jobs w !! i = Some d →
     ∃ d', jobs w' !! i = Some d' ∧ _id d' = _id d ∧
           fields d' !! "steps" = fields d !! "steps").
Proof.
  intros Hw. split.
  - intros d Hd.
    by destruct (inv_docs w (inv_reachable w Hw) d Hd) as (j & t & _ & _ & _ & ?).
  - intros w' i d Hstep Hi. destruct Hstep.
    + apply upload_video_effect in H1 as [[Hdb _]|(data & t & Hdb & _)].
      * exists d. unfold jobs. by rewrite Hdb.
      * exists d. unfold jobs. rewrite Hdb, coll_insert_one_eq.
        rewrite lookup_app_l; [done|]. by eapply lookup_lt_Some.
    + apply waitlist_signup_effect in H0 as [Hjobs _]. exists d. by rewrite Hjobs.
    + exists d. by rewrite (get_job_effect _ _ _ _ _ H).
    + exists d. by injection H as _ <-.
    + change (∃ d', jobs w' !! i = Some d' ∧ _id d' = _id d ∧
                    fields d' !! "steps" = fields d !! "steps").
      destruct (runner_step_db _ _ _ _ _ _ _ _ H0)
        as [Hdb|(flt & upd & _ & Hdb & Hsteps & _)].
      * exists d. unfold jobs. by rewrite Hdb.
      * replace (jobs w') with (update_first (matches flt) (apply_set upd) (jobs w))
          by (unfold jobs; by rewrite Hdb, coll_update_one).
        destruct (update_first_lookup (matches flt) (apply_set upd) _ i d Hi)
          as (d' & Hd' & [->|[-> _]]); [by exists d|].
        exists (apply_set upd d).
        split; [done|]. split; [done|]. by apply fields_apply_set_ne.
    + by exists d.
Qed.

Lemma steps_field_constant_witness :
  (∀ d, d ∈ jobs w_last_step →
     fields d !! "steps" =
       Some (VList ["analyze_content"; "detect_cuts"; "auto_captions";
                    "select_music"; "insert_b_roll"; "color_and_export"])) ∧
  (∀ w' i d, sys_step w_last_step w' → jobs w_last_step !! i = Some d →
     ∃ d', jobs w' !! i = Some d' ∧ _id d' = _id d ∧
           fields d' !! "steps" = fields d !! "steps").
Proof.
  apply (steps_field_constant w_last_step).
  apply reachable_sys_run, reachable_uploaded.
Defined.

(** ** Termination *)

Lemma runner_step_fuel j path fault p w l p' w' :
  runner_step j path fault p w = Some (l, p', w') → (pc_fuel p' < pc_fuel p)%nat.
Proof.
  destruct p as [[|[step prog] rest]|oid step prog rest|rest|e| |e], fault as [e'|];
    cbn [runner_step]; try done;
    try (intros [= <- <- <-]; cbn [pc_fuel List.length]; lia).
  destruct (find_one _ _ _); intros [= <- <- <-]; cbn [pc_fuel List.length]; lia.
Qed.

Lemma runner_step_None j path fault p w :
  runner_step j path fault p w = None → p = Returned ∨ ∃ e, p = Raised e.
Proof.
  destruct p as [[|[step prog] rest]|oid step prog rest|rest|e| |e], fault as [e'|];
    cbn [runner_step]; try done; eauto.
  by destruct (find_one _ _ _).
Qed.

Lemma run_finishes fuel j path :
  ∀ faults p w ls p' w',
    (pc_fuel p ≤ fuel)%nat →
    run fuel j path faults p w = (ls, p', w') →
    p' = Returned ∨ ∃ e, p' = Raised e.
Proof.
  induction fuel as [|fuel IH]; intros faults p w ls p' w' Hfuel Hrun.
  - injection Hrun as _ <- _. destruct p; cbn [pc_fuel] in Hfuel; eauto; lia.
  - rewrite run_S in Hrun.
    destruct (runner_step _ _ _ _ w) as [[[l p1] w1]|] eqn:Hstep.
    + destruct (run fuel j path (tail faults) p1 w1) as [[ls1 p2] w2] eqn:Hrun1.
      injection Hrun as _ <- _. eapply IH; [|done].
      apply runner_step_fuel in Hstep. lia.
    + injection Hrun as _ <- _. by eapply runner_step_None.
Qed.

(** Whatever the store does, a call of [fake_ai_processing] comes to an
    end: it returns, or the exception raised inside its [except] clause
    leaves it. *)
Lemma fake_ai_processing_finishes job_id input_path faults w :
  let '(_, p, _) := fake_ai_processing job_id input_path faults w in
  p = Returned ∨ ∃ e, p = Raised e.
Proof.
  unfold fake_ai_processing.
  destruct (run _ _ _ _ _ w) as [[ls p] w'] eqn:Hrun.
  by eapply run_finishes.
Qed.

(** ** Further properties: the writes of a run *)

(** The three writes a run can make, by program point. *)
Lemma runner_write_cases j path fault p w flt upd p' w' :
  runner_step j path fault p w = Some (LUpdateOne "videojob" flt upd, p', w') →
  (∃ oid step prog rest,
     p = Found oid step prog rest ∧ flt = [("_id", VOid oid)] ∧ p' = Sleeping rest ∧
     upd = [("status", VStr "processing"); ("current_step", VStr step);
            ("progress", VInt prog); ("updated_at", VTime (clock w))]) ∨
  (p = Loop [] ∧ flt = [("job_id", VStr j)] ∧ p' = Returned ∧
   upd = [("status", VStr "completed");
          ("render_url", VStr ("/api/demo/render/" +:+ j +:+ ".mp4"));
          ("updated_at", VTime (clock w))]) ∨
  (∃ e, p = Except e ∧ flt = [("job_id", VStr j)] ∧ p' = Returned ∧
     upd = [("status", VStr "failed"); ("error", VStr (str e))]).
Proof.
  destruct p as [[|[step prog] rest]|oid step prog rest|rest|e| |e], fault as [e'|];
    cbn [runner_step]; try done; try (destruct (find_one _ _ _); done);
    intros [= <- <- <- <-].
  - right. by left.
  - left. by eexists _, _, _, _.
  - right. right. by eexists.
Qed.

(** In a state that satisfies the invariant, a record selected by the
    filter of a write of the run for job [j] is the record of [j]. *)
Lemma runner_step_owner w j t fault flt upd p' w' d :
  inv w →
  tasks w !! j = Some t →
  runner_step j (task_input t) fault (task_pc t) w =
    Some (LUpdateOne "videojob" flt upd, p', w') →
  d ∈ jobs w → matches flt d = true →
  job_key d = Some (VStr j) ∧ pc_doc (task_pc t) d.
Proof.
  intros Hinv Ht Hstep Hd Hm.
  destruct (inv_my_doc w j t Hinv Ht) as (dj & Hdj & Hkj & Hpcj).
  enough (d = dj) as -> by done.
  apply runner_write_cases in Hstep
    as [(oid & step & prog & rest & Hpc & -> & _)|[(_ & -> & _)|(e & _ & -> & _)]].
  - apply matches_oid in Hm. rewrite Hpc in Hpcj. destruct Hpcj as [Hoid _].
    apply (NoDup_fmap_eq _id (jobs w)); [apply Hinv|done..|congruence].
  - apply matches_job_id in Hm.
    apply (NoDup_fmap_eq job_key (jobs w)); [apply Hinv|done..|congruence].
  - apply matches_job_id in Hm.
    apply (NoDup_fmap_eq job_key (jobs w)); [apply Hinv|done..|congruence].
Qed.

(** What one step of the system does to the job collection, in a state
    that satisfies the invariant: nothing, or one new queued record at the
    end, or one write of a run applied to the record of its job. *)
Lemma sys_step_jobs w w' :
  inv w → sys_step w w' →
  jobs w' = jobs w ∨
  (∃ oid data,
     jobs w' = (jobs w ++ [Doc oid data])%list ∧
     data !! "status" = Some (VStr "queued") ∧
     data !! "progress" = Some (VInt 0) ∧
     data !! "current_step" = Some (VStr "analyze_content")) ∨
  (∃ j t fault flt upd p' w0,
     tasks w !! j = Some t ∧
     runner_step j (task_input t) fault (task_pc t) w =
       Some (LUpdateOne "videojob" flt upd, p', w0) ∧
     jobs w' = (fun d => if matches flt d then apply_set upd d else d) <$> jobs w ∧
     ∀ d, d ∈ jobs w → matches flt d = true →
          job_key d = Some (VStr j) ∧ pc_doc (task_pc t) d).
Proof.
  intros Hinv Hstep. destruct Hstep.
  - apply upload_video_effect in H1
      as [[Hdb _]|(data & t & Hdb & _ & _ & _ & Hst & Hpr & Hcur & _)].
    + left. unfold jobs. by rewrite Hdb.
    + right. left. exists oid, data. unfold jobs. by rewrite Hdb, coll_insert_one_eq.
  - left. by apply waitlist_signup_effect in H0 as [-> _].
  - left. by rewrite (get_job_effect _ _ _ _ _ H).
  - left. by injection H as _ <-.
  - change (jobs (set_tasks _ w')) with (jobs w').
    destruct (runner_step_db _ _ _ _ _ _ _ _ H0) as [Hdb|(flt & upd & -> & Hdb & _)].
    + left. unfold jobs. by rewrite Hdb.
    + right. right. exists job_id, t, fault, flt, upd, p', w'.
      assert (Hown : ∀ d, d ∈ jobs w → matches flt d = true →
                          job_key d = Some (VStr job_id) ∧ pc_doc (task_pc t) d).
      { intros d. by apply (runner_step_owner w job_id t fault flt upd p' w'). }
      split; [done|]. split; [done|]. split; [|done].
      unfold jobs at 1. rewrite Hdb, coll_update_one.
      apply (update_first_fmap job_key); [apply Hinv|].
      intros d1 d2 H1 H2 Hm1 Hm2.
      destruct (Hown d1 H1 Hm1) as [-> _]. by destruct (Hown d2 H2 Hm2) as [-> _].
  - by left.
Qed.

(** The table is sorted: the progress of a step is positive, at most 100
    and above the progress of the step before it. *)
Lemma steps_sorted pre step prog rest :
  steps = (pre ++ (step, prog) :: rest)%list →
  0 < prog ≤ 100 ∧ ∀ step0 prog0, last pre = Some (step0, prog0) → prog0 < prog.
Proof.
  unfold steps. intros H.
  do 6 (destruct pre as [|[? ?] pre];
        [injection H as <- <- _; split; [lia|]; cbn; intros ? ? [=]; subst; lia|
         injection H as <- <- H]).
  by destruct pre.
Qed.

(** The record a write of a run lands on, and what is written: a step
    update on a record that shows the steps before it, the completion
    update on a record that shows the last step, or the failure update on
    a record whose run was not over. *)
Lemma runner_write_record w j t fault flt upd p' w' d :
  inv w →
  tasks w !! j = Some t →
  runner_step j (task_input t) fault (task_pc t) w =
    Some (LUpdateOne "videojob" flt upd, p', w') →
  d ∈ jobs w → matches flt d = true →
  (∃ step prog pre rest,
     steps = (pre ++ (step, prog) :: rest)%list ∧ progressed pre d ∧
     upd = [("status", VStr "processing"); ("current_step", VStr step);
            ("progress", VInt prog); ("updated_at", VTime (clock w))]) ∨
  (progressed steps d ∧
   upd = [("status", VStr "completed");
          ("render_url", VStr ("/api/demo/render/" +:+ j +:+ ".mp4"));
          ("updated_at", VTime (clock w))]) ∨
  (∃ e pre rest,
     steps = (pre ++ rest)%list ∧ progressed pre d ∧
     upd = [("status", VStr "failed"); ("error", VStr (str e))]).
Proof.
  intros Hinv Ht Hstep Hd Hm.
  destruct (runner_step_owner w j t fault flt upd p' w' d Hinv Ht Hstep Hd Hm)
    as [_ Hpc].
  apply runner_write_cases in Hstep
    as [(oid & step & prog & rest & Hp & _ & _ & ->)|[(Hp & _ & _ & ->)|(e & Hp & _ & _ & ->)]];
    rewrite Hp in Hpc; cbn [pc_doc] in Hpc.
  - destruct Hpc as (_ & pre & Hpre & Hprog). left. by exists step, prog, pre, rest.
  - destruct Hpc as (pre & Hpre & Hprog). right. left.
    rewrite app_nil_r in Hpre. by subst pre.
  - destruct Hpc as (pre & rest & Hpre & Hprog). right. right. by exists e, pre, rest.
Qed.

(** What a record shows while its run is not over lies on the table. *)
Lemma progressed_on_table pre rest d :
  steps = (pre ++ rest)%list → progressed pre d → on_table d.
Proof.
  intros Hsteps Hprog. unfold progressed in Hprog.
  destruct (last pre) as [[step prog]|] eqn:Hlast.
  - destruct Hprog as ((_ & Hpr & Hcur) & _). exists step, prog.
    split; [done|]. split; [done|]. right.
    rewrite Hsteps. apply elem_of_app. left. by apply last_Some_elem_of.
  - destruct Hprog as ((_ & Hpr & Hcur) & _). exists "analyze_content", 0.
    split; [done|]. split; [done|]. by left.
Qed.

Lemma reachable_on_table w d : reachable w → d ∈ jobs w → on_table d.
Proof.
  intros [t0 Hrtc]. revert w Hrtc d. apply (rtc_ind_r (fun w => ∀ d, d ∈ jobs w → on_table d)).
  - intros d Hd. inversion Hd.
  - intros y z Hy Hstep IH d' Hd'.
    assert (Hinv : inv y) by (apply inv_reachable; by exists t0).
    destruct (sys_step_jobs y z Hinv Hstep)
      as [Hsame|[(oid & data & Hjobs & Hst & Hpr & Hcur)
                |(j & t & fault & flt & upd & p' & w0 & Ht & Hrun & Hjobs & Hown)]].
    + apply IH. by rewrite <- Hsame.
    + rewrite Hjobs in Hd'. apply elem_of_app in Hd' as [Hd'|Hd'%list_elem_of_singleton].
      * by apply IH.
      * subst d'. exists "analyze_content", 0. split; [done|]. split; [done|]. by left.
    + rewrite Hjobs in Hd'. apply list_elem_of_fmap in Hd' as (d & -> & Hd).
      destruct (matches flt d) eqn:Hm; [|by apply IH].
      destruct (runner_write_record y j t fault flt upd p' w0 d Hinv Ht Hrun Hd Hm)
        as [(step & prog & pre & rest & Hsteps & _ & ->)
           |[(_ & ->)|(e & pre & rest & _ & _ & ->)]].
      * exists step, prog. split; [by fields_simpl|]. split; [by fields_simpl|].
        right. rewrite Hsteps. apply elem_of_app. right. left.
      * destruct (IH d Hd) as (step & prog & Hcur & Hpr & Hin).
        exists step, prog. revert Hcur Hpr. fields_simpl. done.
      * destruct (IH d Hd) as (step & prog & Hcur & Hpr & Hin).
        exists step, prog. revert Hcur Hpr. fields_simpl. done.
Qed.

Lemma on_table_range d :
  on_table d →
  ∃ step prog,
    current_step d = Some (VStr step) ∧ progress d = Some (VInt prog) ∧
    step ∈ default_steps ∧ 0 ≤ prog ≤ 100.
Proof.
  intros (step & prog & Hcur & Hpr & Hin). exists step, prog.
  split; [done|]. split; [done|].
  destruct Hin as [[= -> ->]|Hin].
  - split; [by_decide | lia].
  - revert Hin. unfold steps, default_steps.
    rewrite !elem_of_cons, elem_of_nil.
    intros [[= -> ->]|[[= -> ->]|[[= -> ->]|[[= -> ->]|[[= -> ->]|[[= -> ->]|[]]]]]]];
      (split; [by_decide | lia]).
Qed.

(** X1. In every reachable state every job record shows a step and a
    progress that belong together: the pair written at creation
    (analyze_content, 0) or a row of the step table. In particular
    [current_step] is always one of the six step names and [progress] an
    integer from 0 to 100, although the run writes both without going
    through the [VideoJob] schema. *)
Theorem current_step_and_progress_on_table w d :
  reachable w → d ∈ jobs w →
  ∃ step prog,
    current_step d = Some (VStr step) ∧ progress d = Some (VInt prog) ∧
    ((step, prog) = ("analyze_content", 0) ∨ (step, prog) ∈ steps) ∧
    step ∈ default_steps ∧ 0 ≤ prog ≤ 100.
Proof.
  intros Hw Hd. pose proof (reachable_on_table w d Hw Hd) as Htab.
  destruct (on_table_range d Htab) as (step & prog & Hcur & Hpr & Hstep & Hrange).
  destruct Htab as (step' & prog' & Hcur' & Hpr' & Hin).
  assert (step' = step) as -> by congruence.
  assert (prog' = prog) as -> by congruence.
  by exists step, prog.
Qed.

Lemma current_step_and_progress_on_table_witness :
  ∃ d, jobs w_last_step = [d] ∧
  ∃ step prog,
    current_step d = Some (VStr step) ∧ progress d = Some (VInt prog) ∧
    ((step, prog) = ("analyze_content", 0) ∨ (step, prog) ∈ steps) ∧
    step ∈ default_steps ∧ 0 ≤ prog ≤ 100.
Proof.
  eexists. split; [by vm_compute|].
  apply (current_step_and_progress_on_table w_last_step).
  - apply reachable_sys_run, reachable_uploaded.
  - vm_compute. left.
Defined.

(** ** Further properties: how a record moves *)

(** One step of the system leaves a given record as it is or applies one
    write of the run of its job to it. *)
Lemma sys_step_record w w' i d :
  inv w → sys_step w w' → jobs w !! i = Some d →
  jobs w' !! i = Some d ∨
  ∃ j upd,
    job_key d = Some (VStr j) ∧ jobs w' !! i = Some (apply_set upd d) ∧
    ((∃ step prog pre rest,
        steps = (pre ++ (step, prog) :: rest)%list ∧ progressed pre d ∧
        upd = [("status", VStr "processing"); ("current_step", VStr step);
               ("progress", VInt prog); ("updated_at", VTime (clock w))]) ∨
     (progressed steps d ∧
      upd = [("status", VStr "completed");
             ("render_url", VStr ("/api/demo/render/" +:+ j +:+ ".mp4"));
             ("updated_at", VTime (clock w))]) ∨
     (∃ e pre rest,
        steps = (pre ++ rest)%list ∧ progressed pre d ∧
        upd = [("status", VStr "failed"); ("error", VStr (str e))])).
Proof.
  intros Hinv Hstep Hi.
  destruct (sys_step_jobs w w' Hinv Hstep)
    as [Hsame|[(oid & data & Hjobs & _)
              |(j & t & fault & flt & upd & p' & w0 & Ht & Hrun & Hjobs & Hown)]].
  - left. by rewrite Hsame.
  - left. rewrite Hjobs, lookup_app_l; [done|]. by eapply lookup_lt_Some.
  - rewrite Hjobs, list_lookup_fmap, Hi. cbn [fmap option_fmap option_map].
    destruct (matches flt d) eqn:Hm; [|by left].
    assert (Hd : d ∈ jobs w) by by eapply list_elem_of_lookup_2.
    right. exists j, upd. split; [by apply Hown|]. split; [done|].
    by apply (runner_write_record w j t fault flt upd p' w0 d).
Qed.

(** X2. The status of a record moves only along queued -> processing,
    processing -> processing, processing -> completed, queued -> failed
    and processing -> failed: whatever step the system takes from a
    reachable state, a record is left exactly as it is or its status
    makes one of these moves. A queued job can fail without ever
    processing; it cannot complete without processing. *)
Theorem status_moves w w' i d :
  reachable w → sys_step w w' → jobs w !! i = Some d →
  ∃ d', jobs w' !! i = Some d' ∧
    (d' = d ∨
     ∃ s s', status d = Some (VStr s) ∧ status d' = Some (VStr s') ∧
       (s, s') ∈ [("queued", "processing"); ("processing", "processing");
                  ("processing", "completed"); ("queued", "failed");
                  ("processing", "failed")]).
Proof.
  intros Hw Hstep Hi. pose proof (inv_reachable w Hw) as Hinv.
  destruct (sys_step_record w w' i d Hinv Hstep Hi)
    as [Hsame|(j & upd & _ & Hi' & Hcase)]; [by exists d; auto|].
  exists (apply_set upd d). split; [done|]. right.
  destruct Hcase as [(step & prog & pre & rest & _ & Hprog & ->)
                    |[(Hprog & ->)|(e & pre & rest & _ & Hprog & ->)]].
  - apply progressed_status in Hprog as [(Hst & _)|(Hst & _)];
      eexists _, _; (split; [exact Hst|]); (split; [by fields_simpl|]); by_decide.
  - apply progressed_status in Hprog as [(_ & _ & [=])|(Hst & _)].
    eexists _, _. split; [exact Hst|]. split; [by fields_simpl|]. by_decide.
  - apply progressed_status in Hprog as [(Hst & _)|(Hst & _)];
      eexists _, _; (split; [exact Hst|]); (split; [by fields_simpl|]); by_decide.
Qed.

(** X3. The progress of a record never goes down: whatever step the system
    takes from a reachable state, the record is still there, at the same
    place, and shows a progress at least as large as before. *)
Theorem progress_never_decreases w w' i d :
  reachable w → sys_step w w' → jobs w !! i = Some d →
  ∃ d' prog prog',
    jobs w' !! i = Some d' ∧
    progress d = Some (VInt prog) ∧ progress d' = Some (VInt prog') ∧
    prog ≤ prog'.
Proof.
  intros Hw Hstep Hi. pose proof (inv_reachable w Hw) as Hinv.
  assert (Hd : d ∈ jobs w) by by eapply list_elem_of_lookup_2.
  destruct (reachable_on_table w d Hw Hd) as (step0 & prog0 & _ & Hpr & _).
  destruct (sys_step_record w w' i d Hinv Hstep Hi)
    as [Hsame|(j & upd & _ & Hi' & Hcase)]; [by exists d, prog0, prog0|].
  destruct Hcase as [(step & prog & pre & rest & Hsteps & Hprog & ->)
                    |[(Hprog & ->)|(e & pre & rest & _ & Hprog & ->)]].
  - eexists _, prog0, prog.
    split; [exact Hi'|]. split; [done|]. split; [by fields_simpl|].
    destruct (steps_sorted pre step prog rest Hsteps) as [Hpos Hlast].
    apply progressed_status in Hprog as [(_ & Hpr0 & _)|(_ & s1 & p1 & Hl & _ & Hpr1)].
    + rewrite Hpr in Hpr0. injection Hpr0 as ->. lia.
    + rewrite Hpr in Hpr1. injection Hpr1 as ->. specialize (Hlast _ _ Hl). lia.
  - eexists _, prog0, prog0.
    split; [exact Hi'|]. split; [done|]. split; [|lia]. revert Hpr. by fields_simpl.
  - eexists _, prog0, prog0.
    split; [exact Hi'|]. split; [done|]. split; [|lia]. revert Hpr. by fields_simpl.
Qed.

(** C5, as amended. In every reachable state a completed record has
    progress 100 and a queued record has progress 0; a processing record
    shows a step of the table and that step's cumulative progress, which
    is 100 exactly for the last step, color_and_export; a failed record
    shows the step and the progress that were last written before the
    failure, the pair written at creation or a row of the table, 100
    included: the step that marks a record failed leaves its progress and
    its current step as they were, and no step changes them afterwards. *)
Theorem progress_by_status w d :
  reachable w → d ∈ jobs w →
  (status d = Some (VStr "completed") → progress d = Some (VInt 100)) ∧
  (status d = Some (VStr "queued") → progress d = Some (VInt 0)) ∧
  (status d = Some (VStr "processing") →
   ∃ step prog, (step, prog) ∈ steps ∧
     current_step d = Some (VStr step) ∧ progress d = Some (VInt prog) ∧
     (prog = 100 ↔ step = "color_and_export")) ∧
  (status d = Some (VStr "failed") →
   ∃ step prog,
     current_step d = Some (VStr step) ∧ progress d = Some (VInt prog) ∧
     ((step, prog) = ("analyze_content", 0) ∨ (step, prog) ∈ steps)) ∧
  (∀ w' i d',
     sys_step w w' → jobs w !! i = Some d → jobs w' !! i = Some d' →
     status d = Some (VStr "failed") ∨ status d' = Some (VStr "failed") →
     progress d' = progress d ∧ current_step d' = current_step d).
Proof.
  intros Hw Hd.
  split; [|split; [|split; [|split]]].
  - destruct (reachable_doc_shape w d Hw Hd) as [(pre & rest & _ & Hprog)|Hfin].
    + apply progressed_status in Hprog as [(Hst & _)|(Hst & _)]; by rewrite Hst.
    + destruct Hfin as [(_ & Hpr & _)|(Hst & _)]; [done | by rewrite Hst].
  - destruct (reachable_doc_shape w d Hw Hd) as [(pre & rest & _ & Hprog)|Hfin].
    + apply progressed_status in Hprog as [(_ & Hpr & _)|(Hst & _)];
        [done | by rewrite Hst].
    + destruct Hfin as [(Hst & _)|(Hst & _)]; by rewrite Hst.
  - destruct (reachable_doc_shape w d Hw Hd) as [(pre & rest & Hsteps & Hprog)|Hfin].
    + apply progressed_status in Hprog
        as [(Hst & _)|(_ & step & prog & Hlast & Hcur & Hpr)]; [by rewrite Hst|].
      intros _. exists step, prog.
      assert (Hin : (step, prog) ∈ steps).
      { rewrite Hsteps. apply elem_of_app. left. by apply last_Some_elem_of. }
      repeat split; try done.
      * intros ->. revert Hin. unfold steps.
        rewrite !elem_of_cons, elem_of_nil. intros [|[|[|[|[|[|[]]]]]]]; congruence.
      * intros ->. revert Hin. unfold steps.
        rewrite !elem_of_cons, elem_of_nil. intros [|[|[|[|[|[|[]]]]]]]; congruence.
    + destruct Hfin as [(Hst & _)|(Hst & _)]; by rewrite Hst.
  - intros _. exact (reachable_on_table w d Hw Hd).
  - intros w' i d' Hstep Hi Hi' Hfailed.
    destruct (sys_step_record w w' i d (inv_reachable w Hw) Hstep Hi)
      as [Hsame|(j & upd & _ & Hupd & Hcase)].
    { assert (d' = d) as -> by congruence. done. }
    assert (d' = apply_set upd d) as -> by congruence.
    destruct Hcase as [(step & prog & pre & rest & _ & Hprog & ->)
                      |[(Hprog & ->)|(e & pre & rest & _ & Hprog & ->)]].
    + exfalso. destruct Hfailed as [Hf|Hf].
      * apply progressed_status in Hprog as [(Hst & _)|(Hst & _)]; congruence.
      * revert Hf. by fields_simpl.
    + exfalso. destruct Hfailed as [Hf|Hf].
      * apply progressed_status in Hprog as [(Hst & _)|(Hst & _)]; congruence.
      * revert Hf. by fields_simpl.
    + by fields_simpl.
Qed.

Lemma progress_by_status_witness :
  ∃ d, jobs w_last_step = [d] ∧
    (status d = Some (VStr "completed") → progress d = Some (VInt 100)) ∧
    (status d = Some (VStr "queued") → progress d = Some (VInt 0)) ∧
    (status d = Some (VStr "processing") →
     ∃ step prog, (step, prog) ∈ steps ∧
       current_step d = Some (VStr step) ∧ progress d = Some (VInt prog) ∧
       (prog = 100 ↔ step = "color_and_export")) ∧
    (status d = Some (VStr "failed") →
     ∃ step prog,
       current_step d = Some (VStr step) ∧ progress d = Some (VInt prog) ∧
       ((step, prog) = ("analyze_content", 0) ∨ (step, prog) ∈ steps)) ∧
    (∀ w' i d',
       sys_step w_last_step w' → jobs w_last_step !! i = Some d →
       jobs w' !! i = Some d' →
       status d = Some (VStr "failed") ∨ status d' = Some (VStr "failed") →
       progress d' = progress d ∧ current_step d' = current_step d).
Proof.
  eexists. split; [by vm_compute|].
  apply (progress_by_status w_last_step).
  - apply reachable_sys_run, reachable_uploaded.
  - vm_compute. left.
Defined.

Lemma sys_step_sys_run_1 j faults w t l p' w' :
  tasks w !! j = Some t →
  runner_step j (task_input t) (default None (head faults)) (task_pc t) w =
    Some (l, p', w') →
  sys_step w (sys_run 1 j faults w).
Proof.
  intros Ht Hstep. unfold sys_run. rewrite Ht, run_S, Hstep. cbn [run].
  by eapply step_runner.
Qed.

Lemma sys_step_w_found : sys_step w_found (sys_run 1 "j1" [] w_found).
Proof. eapply sys_step_sys_run_1; by vm_compute. Qed.

Lemma reachable_w_found : reachable w_found.
Proof. apply reachable_sys_run, reachable_uploaded. Qed.

Lemma status_moves_witness :
  ∃ d, jobs w_found !! 0%nat = Some d ∧
  ∃ d', jobs (sys_run 1 "j1" [] w_found) !! 0%nat = Some d' ∧
    (d' = d ∨
     ∃ s s', status d = Some (VStr s) ∧ status d' = Some (VStr s') ∧
       (s, s') ∈ [("queued", "processing"); ("processing", "processing");
                  ("processing", "completed"); ("queued", "failed");
                  ("processing", "failed")]).
Proof.
  eexists. split; [by vm_compute|].
  apply (status_moves w_found (sys_run 1 "j1" [] w_found) 0).
  - exact reachable_w_found.
  - exact sys_step_w_found.
  - by vm_compute.
Defined.

Lemma progress_never_decreases_witness :
  ∃ d, jobs w_found !! 0%nat = Some d ∧
  ∃ d' prog prog',
    jobs (sys_run 1 "j1" [] w_found) !! 0%nat = Some d' ∧
    progress d = Some (VInt prog) ∧ progress d' = Some (VInt prog') ∧
    prog ≤ prog'.
Proof.
  eexists. split; [by vm_compute|].
  apply (progress_never_decreases w_found (sys_run 1 "j1" [] w_found) 0).
  - exact reachable_w_found.
  - exact sys_step_w_found.
  - by vm_compute.
Defined.

(** ** Further properties: what is never touched *)

(** X4. A run writes six fields and no other: whatever step the system
    takes, from any state, every job record stays at its place with its
    [_id] and with every field other than status, current_step, progress,
    updated_at, render_url and error as it was. In particular job_id,
    email, filename and size_bytes are fixed at creation, and no record
    is ever removed. *)
Theorem creation_fields_immutable w w' i d k :
  sys_step w w' → jobs w !! i = Some d →
  k ∉ ["status"; "current_step"; "progress"; "updated_at"; "render_url"; "error"] →
  ∃ d', jobs w' !! i = Some d' ∧ _id d' = _id d ∧ fields d' !! k = fields d !! k.
Proof.
  intros Hstep Hi Hk. destruct Hstep.
  - apply upload_video_effect in H1 as [[Hdb _]|(data & t & Hdb & _)].
    + exists d. unfold jobs. by rewrite Hdb.
    + exists d. unfold jobs. rewrite Hdb, coll_insert_one_eq.
      rewrite lookup_app_l; [done|]. by eapply lookup_lt_Some.
  - apply waitlist_signup_effect in H0 as [Hjobs _]. exists d. by rewrite Hjobs.
  - exists d. by rewrite (get_job_effect _ _ _ _ _ H).
  - exists d. by injection H as _ <-.
  - change (jobs (set_tasks _ w')) with (jobs w').
    destruct (runner_step_db _ _ _ _ _ _ _ _ H0) as [Hdb|(flt & upd & -> & Hdb & _)].
    + exists d. unfold jobs. by rewrite Hdb.
    + replace (jobs w') with (update_first (matches flt) (apply_set upd) (jobs w))
        by (unfold jobs; by rewrite Hdb, coll_update_one).
      destruct (update_first_lookup (matches flt) (apply_set upd) _ i d Hi)
        as (d' & Hd' & [->|[-> _]]); [by exists d|].
      exists (apply_set upd d). split; [done|]. split; [done|].
      apply fields_apply_set_ne.
      apply runner_write_cases in H0
        as [(oid & step & prog & rest & _ & _ & _ & ->)
           |[(_ & _ & _ & ->)|(e & _ & _ & _ & ->)]];
        cbn; revert Hk; rewrite !elem_of_cons, !elem_of_nil; tauto.
  - by exists d.
Qed.

Lemma creation_fields_immutable_witness :
  ∃ d, jobs w_found !! 0%nat = Some d ∧
  ∃ d', jobs (sys_run 1 "j1" [] w_found) !! 0%nat = Some d' ∧ _id d' = _id d ∧
        fields d' !! "filename" = fields d !! "filename".
Proof.
  eexists. split; [by vm_compute|].
  apply (creation_fields_immutable w_found (sys_run 1 "j1" [] w_found) 0).
  - exact sys_step_w_found.
  - by vm_compute.
  - by_decide.
Defined.

Lemma coll_update_one_ne name name' flt upd db0 :
  name ≠ name' → coll (update_one name flt upd db0) name' = coll db0 name'.
Proof. intros Hne. unfold coll, update_one. by rewrite lookup_alter_ne. Qed.


Lemma reachable_w_two_jobs : reachable w_two_jobs.
Proof.
  destruct reachable_w_found as [t0 H]. exists t0.
  eapply rtc_r; [exact H|].
  apply (step_upload example_validator clip None "j2" "oid2" None None w_found
           (upload_video example_validator clip None "j2" "oid2" None None w_found).1).
  - split; [|by vm_compute]. vm_compute. intros H0. inversion H0 as [|? ? ? H']. inversion H'.
  - vm_compute. intros H0. inversion H0 as [|? ? ? H']. inversion H'.
  - apply surjective_pairing.
Qed.


(** X6. Waitlist records are write-once: whatever step the system takes,
    from any state, the waitlist collection afterwards is the collection
    before with at most one record added at the end: no path updates or
    removes a waitlist record. *)
Theorem waitlist_only_grows w w' :
  sys_step w w' →
  ∃ new, coll (db w') "waitlistuser" = (coll (db w) "waitlistuser" ++ new)%list ∧
         (List.length new ≤ 1)%nat.
Proof.
  intros Hstep. destruct Hstep.
  - exists []. rewrite app_nil_r. split; [|cbn; lia].
    apply upload_video_effect in H1 as [[-> _]|(data & t & -> & _)]; [done|].
    by apply coll_insert_one_ne.
  - revert H0.
    unfold waitlist_signup, try_except, bind, create_document, fallible, ret, raise.
    destruct fault as [e|]; intros [= <- <-].
    + exists []. rewrite app_nil_r. split; [done|cbn; lia].
    + eexists [_]. cbn [db set_db]. rewrite coll_insert_one_eq. split; [done|cbn; lia].
  - exists []. rewrite app_nil_r, (get_job_effect _ _ _ _ _ H). split; [done|cbn; lia].
  - exists []. rewrite app_nil_r. injection H as _ <-. split; [done|cbn; lia].
  - exists []. rewrite app_nil_r. split; [|cbn; lia].
    change (coll (db w') "waitlistuser" = coll (db w) "waitlistuser").
    destruct (runner_step_db _ _ _ _ _ _ _ _ H0) as [->|(flt & upd & _ & -> & _)];
      [done|]. by apply coll_update_one_ne.
  - exists []. rewrite app_nil_r. split; [done|cbn; lia].
Qed.

Lemma waitlist_only_grows_witness :
  ∃ new,
    coll (db (waitlist_signup {| email := "a@b.com"; name := None; source := None |}
                "wid1" None w_found).2) "waitlistuser" =
      (coll (db w_found) "waitlistuser" ++ new)%list ∧
    (List.length new ≤ 1)%nat.
Proof.
  apply (waitlist_only_grows w_found).
  apply (step_waitlist {| email := "a@b.com"; name := None; source := None |}
           "wid1" None w_found
           (waitlist_signup {| email := "a@b.com"; name := None; source := None |}
              "wid1" None w_found).1).
  - vm_compute. intros H. inversion H.
  - apply surjective_pairing.
Defined.

(** ** Further properties: the handlers *)

(** X7. The waitlist endpoint stores what it is given and does not look
    for an earlier entry: the same body submitted twice, the store not
    failing, is answered twice with the identifier of a new record, and
    the collection ends with two records that both hold the body's email,
    name and source. *)
Theorem waitlist_signup_twice payload oid1 oid2 w :
  let '(r1, w1) := waitlist_signup payload oid1 None w in
  let '(r2, w2) := waitlist_signup payload oid2 None w1 in
  r1 = Ok [("ok", VBool true); ("id", VStr oid1)] ∧
  r2 = Ok [("ok", VBool true); ("id", VStr oid2)] ∧
  coll (db w2) "waitlistuser" =
    (coll (db w) "waitlistuser" ++ [Doc oid1 (dict payload); Doc oid2 (dict payload)])%list ∧
  dict payload !! "email" = Some (VStr (email payload)) ∧
  dict payload !! "name" = Some (of_opt (name payload)) ∧
  dict payload !! "source" = Some (of_opt (source payload)).
Proof.
  unfold waitlist_signup, try_except, bind, create_document, fallible, ret.
  cbn [db set_db]. split; [done|]. split; [done|].
  split; [by rewrite !coll_insert_one_eq, <- app_assoc|].
  repeat split; by vm_compute.
Qed.

(** X8. Every exception that leaves one of the three handlers is an
    [HTTPException] with status 500, whatever the input and whatever the
    store or the file system does: a failed write, a refused email and a
    missing job all reach the caller as 500. *)
Theorem handlers_raise_only_500 EmailStr payload file email uuid job_id oid fs_fault fault w :
  is_500 (waitlist_signup payload oid fault w).1 ∧
  is_500 (upload_video EmailStr file email uuid oid fs_fault fault w).1 ∧
  is_500 (get_job job_id fault w).1.
Proof.
  split; [|split].
  - unfold waitlist_signup, try_except, bind, create_document, fallible, ret, raise.
    destruct fault; cbn; eauto.
  - unfold upload_video, try_except, bind, write_file, fallible, getsize, lift,
      create_document, add_task, ret, raise, VideoJob_new.
    destruct fs_fault as [e|]; [cbn; eauto|].
    cbn [files set_files]. rewrite lookup_insert_eq.
    destruct (validate_optional EmailStr email); simpl negb; cbn iota; [|cbn; eauto].
    destruct fault; cbn; eauto.
  - unfold get_job, try_except, bind, fallible, ret, raise.
    destruct fault; [cbn; eauto|].
    destruct (find_one _ _ _); cbn; eauto.
Qed.

Lemma find_first_unique_key j (c : list document) d :
  NoDup (job_key <$> c) → d ∈ c → job_key d = Some (VStr j) →
  find_first (matches [("job_id", VStr j)]) c = Some d.
Proof.
  intros Hnd Hd Hk.
  destruct (find_first _ c) as [d0|] eqn:Hfind.
  - apply find_first_Some in Hfind as [Hd0 Hm%matches_job_id].
    f_equal. apply (NoDup_fmap_eq job_key c); [done..|congruence].
  - rewrite find_first_None in Hfind. specialize (Hfind d Hd).
    apply matches_job_id in Hk. congruence.
Qed.

(** X9. In every reachable state a lookup by the job identifier of a
    stored record, the store not failing, returns exactly that record,
    with every stored field and [_id] as a string, and changes nothing. *)
Theorem get_job_returns_record w d :
  reachable w → d ∈ jobs w →
  ∃ j, job_key d = Some (VStr j) ∧
       get_job j None w = (Ok (<["_id" := VStr (_id d)]> (fields d)), w).
Proof.
  intros Hw Hd. pose proof (inv_reachable w Hw) as Hinv.
  destruct (inv_docs w Hinv d Hd) as (j & t & Hk & _).
  exists j. split; [done|].
  unfold get_job, try_except, bind, fallible, ret, find_one.
  fold (jobs w).
  by rewrite (find_first_unique_key j (jobs w) d (inv_keys w Hinv) Hd Hk).
Qed.

Lemma get_job_returns_record_witness :
  ∃ d, jobs w_two_jobs !! 1%nat = Some d ∧
  ∃ j, job_key d = Some (VStr j) ∧
       get_job j None w_two_jobs = (Ok (<["_id" := VStr (_id d)]> (fields d)), w_two_jobs).
Proof.
  eexists. split; [by vm_compute|].
  apply (get_job_returns_record w_two_jobs).
  - exact reachable_w_two_jobs.
  - vm_compute. right. left.
Defined.

(** X10. A successful upload, for an email that is absent or that the
    validator takes, and with nothing failing: the file's content is
    stored under uploads/<job id>_<original name>; one record is added at
    the end of the job collection that holds the job identifier, the
    email as the validator returned it (None when absent), the combined
    file name and the byte length of the content as size_bytes; the run
    is scheduled with the stored path, at the head of the loop; the
    response carries the job identifier; the waitlist collection and the
    clock are as before. *)
Theorem upload_video_stores EmailStr file email email' uuid oid w :
  validate_optional EmailStr email = Ok email' →
  ∃ w' data,
    upload_video EmailStr file email uuid oid None None w =
      (Ok [("ok", VBool true); ("job_id", VStr uuid)], w') ∧
    files w' = <["uploads/" +:+ uuid +:+ "_" +:+ filename file := content file]> (files w) ∧
    jobs w' = (jobs w ++ [Doc oid data])%list ∧
    data !! "job_id" = Some (VStr uuid) ∧
    data !! "email" = Some (of_opt email') ∧
    data !! "filename" = Some (VStr (uuid +:+ "_" +:+ filename file)) ∧
    data !! "size_bytes" = Some (VInt (Z.of_nat (List.length (content file)))) ∧
    tasks w' =
      <[uuid := Task ("uploads/" +:+ uuid +:+ "_" +:+ filename file) (Loop steps)]> (tasks w) ∧
    coll (db w') "waitlistuser" = coll (db w) "waitlistuser" ∧
    clock w' = clock w.
Proof.
  intros Hmail.
  destruct (upload_video_succeeds EmailStr file email uuid oid w) as [w' Hup];
    [by exists email'|].
  destruct (upload_video_Ok _ _ _ _ _ _ _ _ _ _ Hup)
    as (email'' & data & _ & _ & Hmail' & _ & Hw' & Hjob & Hemail & Hname & Hsize & _).
  assert (email'' = email') as -> by congruence.
  exists w', data. split; [exact Hup|]. rewrite Hw'.
  cbn [files tasks clock db]. unfold jobs. cbn [db].
  rewrite coll_insert_one_eq, coll_insert_one_ne by done.
  repeat split; done.
Qed.

Lemma upload_video_stores_witness :
  ∃ w' data,
    upload_video example_validator clip (Some "a@b.com") "j1" "oid1" None None (init 0) =
      (Ok [("ok", VBool true); ("job_id", VStr "j1")], w') ∧
    files w' = <["uploads/" +:+ "j1" +:+ "_" +:+ filename clip := content clip]> (files (init 0)) ∧
    jobs w' = (jobs (init 0) ++ [Doc "oid1" data])%list ∧
    data !! "job_id" = Some (VStr "j1") ∧
    data !! "email" = Some (of_opt (Some "a@b.com")) ∧
    data !! "filename" = Some (VStr ("j1" +:+ "_" +:+ filename clip)) ∧
    data !! "size_bytes" = Some (VInt (Z.of_nat (List.length (content clip)))) ∧
    tasks w' =
      <["j1" := Task ("uploads/" +:+ "j1" +:+ "_" +:+ filename clip) (Loop steps)]>
        (tasks (init 0)) ∧
    coll (db w') "waitlistuser" = coll (db (init 0)) "waitlistuser" ∧
    clock w' = clock (init 0).
Proof.
  apply (upload_video_stores example_validator clip (Some "a@b.com") (Some "a@b.com")
           "j1" "oid1" (init 0)).
  by vm_compute.
Defined.

(** X11. An upload that fails after the file is written leaves the file
    behind: when the validator refuses the email or the store refuses the
    record, the handler answers 500, the content stays stored under
    uploads/<job id>_<original name>, and neither a job record nor a
    background run exists for it. *)
Theorem upload_video_orphan_file EmailStr file email uuid oid db_fault w :
  (∃ e, validate_optional EmailStr email = Raise e) ∨ is_Some db_fault →
  ∃ detail w',
    upload_video EmailStr file email uuid oid None db_fault w =
      (Raise (HTTPException 500 detail), w') ∧
    files w' !! ("uploads/" +:+ uuid +:+ "_" +:+ filename file) = Some (content file) ∧
    db w' = db w ∧ tasks w' = tasks w.
Proof.
  intros Hfail.
  unfold upload_video, try_except, bind, write_file, fallible, getsize, lift,
    create_document, add_task, ret, raise, VideoJob_new.
  cbn [files set_files]. rewrite lookup_insert_eq.
  destruct (validate_optional EmailStr email) as [email'|e] eqn:Hmail; simpl negb; cbn iota.
  - destruct Hfail as [[e [=]]|[e ->]].
    eexists _, _. split; [reflexivity|]. cbn [files db tasks set_files].
    by rewrite lookup_insert_eq.
  - eexists _, _. split; [reflexivity|]. cbn [files db tasks set_files].
    by rewrite lookup_insert_eq.
Qed.

Lemma upload_video_orphan_file_witness :
  ∃ detail w',
    upload_video example_validator clip (Some "not-an-email") "j1" "oid1" None None (init 0) =
      (Raise (HTTPException 500 detail), w') ∧
    files w' !! ("uploads/" +:+ "j1" +:+ "_" +:+ filename clip) = Some (content clip) ∧
    db w' = db (init 0) ∧ tasks w' = tasks (init 0).
Proof.
  apply (upload_video_orphan_file example_validator clip (Some "not-an-email")
           "j1" "oid1" None (init 0)).
  left. eexists. by vm_compute.
Defined.

(** ** Further properties: a whole run *)

Lemma matches_job_apply_set j upd d :
  "job_id" ∉ upd.*1 →
  matches [("job_id", VStr j)] (apply_set upd d) = matches [("job_id", VStr j)] d.
Proof.
  intros Hk. apply eq_true_iff_eq. rewrite !matches_job_id. unfold job_key.
  by rewrite fields_apply_set_ne.
Qed.

Lemma find_after_update_by_id j upd (c : list document) d :
  NoDup (_id <$> c) →
  "job_id" ∉ upd.*1 →
  find_first (matches [("job_id", VStr j)]) c = Some d →
  find_first (matches [("job_id", VStr j)])
    (update_first (matches [("_id", VOid (_id d))]) (apply_set upd) c) =
  Some (apply_set upd d).
Proof.
  intros Hnd Hk. induction c as [|x c IH]; intros Hfind; [done|].
  rewrite fmap_cons in Hnd. apply NoDup_cons in Hnd as [Hnx Hnd].
  cbn [find_first update_first] in *.
  destruct (matches [("job_id", VStr j)] x) eqn:Hjx.
  - injection Hfind as ->.
    assert (matches [("_id", VOid (_id d))] d = true) as -> by by apply matches_oid.
    cbn [find_first]. by rewrite matches_job_apply_set, Hjx.
  - destruct (matches [("_id", VOid (_id d))] x) eqn:Hix.
    + apply matches_oid in Hix. apply find_first_Some in Hfind as [Hd _].
      destruct Hnx. rewrite Hix. by apply list_elem_of_fmap_2.
    + cbn [find_first]. rewrite Hjx. by apply IH.
Qed.

Lemma find_after_update_by_job j upd (c : list document) d :
  "job_id" ∉ upd.*1 →
  find_first (matches [("job_id", VStr j)]) c = Some d →
  find_first (matches [("job_id", VStr j)])
    (update_first (matches [("job_id", VStr j)]) (apply_set upd) c) =
  Some (apply_set upd d).
Proof.
  intros Hk. induction c as [|x c IH]; intros Hfind; [done|].
  cbn [find_first update_first] in *.
  destruct (matches [("job_id", VStr j)] x) eqn:Hjx.
  - injection Hfind as ->. cbn [find_first]. by rewrite matches_job_apply_set, Hjx.
  - cbn [find_first]. rewrite Hjx. by apply IH.
Qed.

Lemma ids_update_first p upd (c : list document) :
  _id <$> update_first p (apply_set upd) c = _id <$> c.
Proof.
  induction c as [|x c IH]; [done|]. cbn [update_first].
  destruct (p x); rewrite !fmap_cons; [done|]. by rewrite IH.
Qed.

(** From the head of the loop, with the record present, store identifiers
    unique and the store not failing, the run returns and the record of
    the job has received every write. *)
Lemma run_loop_record job_id input_path rest :
  ∀ fuel w d,
    (pc_fuel (Loop rest) ≤ fuel)%nat →
    NoDup (_id <$> jobs w) →
    find_one "videojob" [("job_id", VStr job_id)] (db w) = Some d →
    ∃ ls w',
      run fuel job_id input_path [] (Loop rest) w = (ls, Returned, w') ∧
      find_one "videojob" [("job_id", VStr job_id)] (db w') =
        Some (after_steps job_id (clock w) rest d) ∧
      files w' = files w ∧ tasks w' = tasks w.
Proof.
  induction rest as [|[step prog] rest IH]; intros fuel w d Hfuel Hnd Hfind.
  - destruct fuel as [|fuel]; [simpl in Hfuel; lia|].
    rewrite run_S. cbn [runner_step head tail default]. rewrite run_Returned.
    eexists _, _. split; [reflexivity|]. split; [|done].
    unfold find_one in *. cbn [db set_db]. rewrite coll_update_one.
    apply find_after_update_by_job; [by_decide | done].
  - cbn [pc_fuel List.length] in Hfuel.
    do 3 (destruct fuel as [|fuel]; [lia|]).
    rewrite run_S. cbn [runner_step head tail default]. rewrite Hfind.
    rewrite run_S. cbn [runner_step head tail default].
    rewrite run_S. cbn [runner_step head tail default].
    edestruct (IH fuel) as (ls & w' & Hrun & Hrec & Hfiles & Htasks); last first.
    + rewrite Hrun. eexists _, _. split; [reflexivity|].
      split; [exact Hrec|]. by rewrite Hfiles, Htasks.
    + unfold find_one in *. cbn [sleep set_clock set_db db]. rewrite coll_update_one.
      apply find_after_update_by_id; [done | by_decide | done].
    + unfold jobs. cbn [sleep set_clock set_db db].
      rewrite coll_update_one, ids_update_first. done.
    + cbn [pc_fuel] in *. lia.
Qed.

Lemma after_steps_id job_id rest : ∀ now d, _id (after_steps job_id now rest d) = _id d.
Proof.
  induction rest as [|[step prog] rest IH]; intros now d; cbn [after_steps]; [done|].
  by rewrite IH.
Qed.

Lemma after_steps_ne job_id k rest :
  k ∉ ["status"; "current_step"; "progress"; "updated_at"; "render_url"] →
  ∀ now d, fields (after_steps job_id now rest d) !! k = fields d !! k.
Proof.
  intros Hk. induction rest as [|[step prog] rest IH]; intros now d; cbn [after_steps].
  - apply fields_apply_set_ne. cbn. revert Hk.
    rewrite !elem_of_cons, !elem_of_nil. tauto.
  - rewrite IH. apply fields_apply_set_ne. cbn. revert Hk.
    rewrite !elem_of_cons, !elem_of_nil. tauto.
Qed.

Lemma after_steps_fields job_id now d :
  let d' := after_steps job_id now steps d in
  status d' = Some (VStr "completed") ∧
  progress d' = Some (VInt 100) ∧
  current_step d' = Some (VStr "color_and_export") ∧
  fields d' !! "render_url" = Some (VStr ("/api/demo/render/" +:+ job_id +:+ ".mp4")) ∧
  fields d' !! "updated_at" = Some (VTime (now + 3600)).
Proof.
  unfold steps. cbn [after_steps]. fields_simpl.
  rewrite <- !Z.add_assoc. repeat split; reflexivity.
Qed.





(** X12. The record at the end of an undisturbed run. For a job that has a
    record, store identifiers being unique and the store not failing, the
    call returns and the job's record then shows status completed,
    progress 100, current step color_and_export, the render locator
    /api/demo/render/<job id>.mp4 and, as updated_at, the time of the
    completion update, which is no less than 3600 ms after the start
    (six sleeps of 600 ms); its [_id] and every other field, the error
    field included, are as they were. *)
Theorem fake_ai_processing_completes job_id input_path w d :
  NoDup (_id <$> jobs w) →
  find_one "videojob" [("job_id", VStr job_id)] (db w) = Some d →
  ∃ ls w' d',
    fake_ai_processing job_id input_path [] w = (ls, Returned, w') ∧
    find_one "videojob" [("job_id", VStr job_id)] (db w') = Some d' ∧
    _id d' = _id d ∧
    status d' = Some (VStr "completed") ∧
    progress d' = Some (VInt 100) ∧
    current_step d' = Some (VStr "color_and_export") ∧
    fields d' !! "render_url" = Some (VStr ("/api/demo/render/" +:+ job_id +:+ ".mp4")) ∧
    (∃ t, fields d' !! "updated_at" = Some (VTime t) ∧ clock w + 3600 ≤ t) ∧
    ∀ k, k ∉ ["status"; "current_step"; "progress"; "updated_at"; "render_url"] →
         fields d' !! k = fields d !! k.
Proof.
  intros Hnd Hfind. unfold fake_ai_processing.
  destruct (run_loop_record job_id input_path steps (pc_fuel (Loop steps)) w d)
    as (ls & w' & Hrun & Hrec & _); [done..|].
  exists ls, w', (after_steps job_id (clock w) steps d).
  split; [done|]. split; [done|]. split; [apply after_steps_id|].
  destruct (after_steps_fields job_id (clock w) d) as (? & ? & ? & ? & Hupd).
  split; [done|]. split; [done|]. split; [done|]. split; [done|].
  split; [eexists; split; [exact Hupd|lia]|].
  intros k Hk. by apply after_steps_ne.
Qed.

Lemma fake_ai_processing_completes_witness :
  ∃ d, find_one "videojob" [("job_id", VStr "j1")] (db w_uploaded) = Some d ∧
  ∃ ls w' d',
    fake_ai_processing "j1" "uploads/j1_clip.mp4" [] w_uploaded = (ls, Returned, w') ∧
    find_one "videojob" [("job_id", VStr "j1")] (db w') = Some d' ∧
    _id d' = _id d ∧
    status d' = Some (VStr "completed") ∧
    progress d' = Some (VInt 100) ∧
    current_step d' = Some (VStr "color_and_export") ∧
    fields d' !! "render_url" = Some (VStr ("/api/demo/render/" +:+ "j1" +:+ ".mp4")) ∧
    (∃ t, fields d' !! "updated_at" = Some (VTime t) ∧ clock w_uploaded + 3600 ≤ t) ∧
    ∀ k, k ∉ ["status"; "current_step"; "progress"; "updated_at"; "render_url"] →
         fields d' !! k = fields d !! k.
Proof.
  eexists. split; [by vm_compute|].
  apply (fake_ai_processing_completes "j1" "uploads/j1_clip.mp4" w_uploaded).
  - vm_compute. apply NoDup_singleton.
  - by vm_compute.
Defined.

(** X13. End to end. From any reachable state, an upload with an email that
    is absent or that the validator takes and fresh identifiers, followed by the
    undisturbed run of the scheduled task, the store and the file system
    not failing, ends with a lookup of the job that returns status
    completed, progress 100, current step color_and_export, the render
    locator of the job and no error, together with the file name and size
    recorded at upload. *)
Theorem upload_run_lookup EmailStr file email uuid oid w :
  reachable w →
  email_accepted EmailStr email →
  fresh_job_id uuid w →
  fresh_oid "videojob" oid w →
  ∃ body w1 ls w2 rec,
    upload_video EmailStr file email uuid oid None None w = (Ok body, w1) ∧
    tasks w1 !! uuid =
      Some (Task ("uploads/" +:+ uuid +:+ "_" +:+ filename file) (Loop steps)) ∧
    fake_ai_processing uuid ("uploads/" +:+ uuid +:+ "_" +:+ filename file) [] w1 =
      (ls, Returned, w2) ∧
    get_job uuid None w2 = (Ok rec, w2) ∧
    rec !! "_id" = Some (VStr oid) ∧
    rec !! "status" = Some (VStr "completed") ∧
    rec !! "progress" = Some (VInt 100) ∧
    rec !! "current_step" = Some (VStr "color_and_export") ∧
    rec !! "render_url" = Some (VStr ("/api/demo/render/" +:+ uuid +:+ ".mp4")) ∧
    rec !! "error" = Some VNone ∧
    rec !! "filename" = Some (VStr (uuid +:+ "_" +:+ filename file)) ∧
    rec !! "size_bytes" = Some (VInt (Z.of_nat (List.length (content file)))).
Proof.
  intros Hw Hmail [Hfresh _] Hoid. pose proof (inv_reachable w Hw) as Hinv.
  destruct (upload_video_succeeds EmailStr file email uuid oid w Hmail) as [w1 Hup].
  destruct (upload_video_Ok _ _ _ _ _ _ _ _ _ _ Hup)
    as (email' & data & _ & _ & _ & _ & Hw1 & Hjob & _ & Hname & Hsize & _ & _ & _ & _ & Herr & _).
  assert (Hjobs : jobs w1 = (jobs w ++ [Doc oid data])%list).
  { unfold jobs. rewrite Hw1. cbn [db]. apply coll_insert_one_eq. }
  assert (Hnd : NoDup (_id <$> jobs w1)).
  { rewrite Hjobs, fmap_app. apply NoDup_app. split; [apply Hinv|].
    split; [|apply NoDup_singleton].
    intros x Hx Hin%list_elem_of_singleton. by subst. }
  assert (Hfind : find_one "videojob" [("job_id", VStr uuid)] (db w1) = Some (Doc oid data)).
  { unfold find_one. fold (jobs w1).
    rewrite Hjobs, find_first_app. unfold jobs.
    rewrite (find_one_fresh _ _ Hfresh). cbn [find_first].
    assert (matches [("job_id", VStr uuid)] (Doc oid data) = true) as ->; [|done].
    by apply matches_job_id. }
  destruct (run_loop_record uuid ("uploads/" +:+ uuid +:+ "_" +:+ filename file)
              steps (pc_fuel (Loop steps)) w1 (Doc oid data))
    as (ls & w2 & Hrun & Hrec & _); [done..|].
  eexists _, w1, ls, w2, _. split; [exact Hup|].
  split; [rewrite Hw1; apply lookup_insert_eq|]. split; [exact Hrun|].
  unfold get_job, try_except, bind, fallible, ret. rewrite Hrec.
  split; [reflexivity|].
  set (d' := after_steps uuid (clock w1) steps (Doc oid data)).
  destruct (after_steps_fields uuid (clock w1) (Doc oid data)) as (Hst & Hpr & Hcur & Hr & _).
  fold d' in Hst, Hpr, Hcur, Hr.
  split; [rewrite lookup_insert_eq; unfold d'; by rewrite after_steps_id|].
  rewrite !lookup_insert_ne by discriminate.
  split; [done|]. split; [done|]. split; [done|]. split; [done|].
  unfold d'. rewrite !after_steps_ne by by_decide. done.
Qed.

Lemma upload_run_lookup_witness :
  ∃ body w1 ls w2 rec,
    upload_video example_validator clip None "j2" "oid2" None None w_found = (Ok body, w1) ∧
    tasks w1 !! "j2" =
      Some (Task ("uploads/" +:+ "j2" +:+ "_" +:+ filename clip) (Loop steps)) ∧
    fake_ai_processing "j2" ("uploads/" +:+ "j2" +:+ "_" +:+ filename clip) [] w1 =
      (ls, Returned, w2) ∧
    get_job "j2" None w2 = (Ok rec, w2) ∧
    rec !! "_id" = Some (VStr "oid2") ∧
    rec !! "status" = Some (VStr "completed") ∧
    rec !! "progress" = Some (VInt 100) ∧
    rec !! "current_step" = Some (VStr "color_and_export") ∧
    rec !! "render_url" = Some (VStr ("/api/demo/render/" +:+ "j2" +:+ ".mp4")) ∧
    rec !! "error" = Some VNone ∧
    rec !! "filename" = Some (VStr ("j2" +:+ "_" +:+ filename clip)) ∧
    rec !! "size_bytes" = Some (VInt (Z.of_nat (List.length (content clip)))).
Proof.
  apply (upload_run_lookup example_validator clip None "j2" "oid2" w_found).
  - exact reachable_w_found.
  - by exists None.
  - split; [|by vm_compute]. vm_compute. intros H. inversion H as [|? ? ? H']. inversion H'.
  - vm_compute. intros H. inversion H as [|? ? ? H']. inversion H'.
Defined.

(** ** Further properties: how a run ends *)

Lemma runner_step_writes j path fault p w l p' w' :
  runner_step j path fault p w = Some (l, p', w') →
  (pc_writes p' + List.length (writes [l]) ≤ pc_writes p)%nat.
Proof.
  destruct p as [[|[step prog] rest]|oid step prog rest|rest|e| |e], fault as [e'|];
    cbn [runner_step]; try done;
    try (intros [= <- <- <-]; cbn; lia).
  destruct (find_one _ _ _); intros [= <- <- <-]; cbn; lia.
Qed.

Lemma runner_step_Raised j path fault p w l e w' :
  runner_step j path fault p w = Some (l, Raised e, w') → fault = Some e.
Proof.
  destruct p as [[|[step prog] rest]|oid step prog rest|rest|e0| |e0], fault as [e'|];
    cbn [runner_step]; try done; try (destruct (find_one _ _ _); done).
  by intros [= _ ->].
Qed.

Lemma run_ends fuel j path :
  ∀ faults p w ls p' w',
    (pc_fuel p ≤ fuel)%nat →
    run fuel j path faults p w = (ls, p', w') →
    (p' = Returned ∨ ∃ e, p' = Raised e ∧ (p = Raised e ∨ Some e ∈ faults)) ∧
    (List.length ls ≤ pc_fuel p)%nat ∧
    (List.length (writes ls) ≤ pc_writes p)%nat.
Proof.
  induction fuel as [|fuel IH]; intros faults p w ls p' w' Hfuel Hrun.
  - injection Hrun as <- <- <-.
    destruct p; cbn [pc_fuel] in Hfuel; try lia; (split; [eauto|cbn; lia]).
  - rewrite run_S in Hrun.
    destruct (runner_step _ _ _ _ w) as [[[l p1] w1]|] eqn:Hstep.
    + destruct (run fuel j path (tail faults) p1 w1) as [[ls1 p2] w2] eqn:Hrun1.
      injection Hrun as <- <- <-.
      pose proof (runner_step_fuel _ _ _ _ _ _ _ _ Hstep) as Hlt.
      pose proof (runner_step_writes _ _ _ _ _ _ _ _ Hstep) as Hwr.
      destruct (IH (tail faults) p1 w1 ls1 p2 w2) as (Hend & Hlen & Hw); [lia|done|].
      split; [|split].
      * destruct Hend as [->|(e & -> & [->|Hin])]; [by left|..]; right; exists e;
          (split; [done|]); right.
        -- apply runner_step_Raised in Hstep.
           destruct faults as [|f faults]; [done|]. cbn in Hstep. subst f. left.
        -- destruct faults as [|f faults]; [done|]. by right.
      * cbn [List.length]. lia.
      * change (l :: ls1) with ([l] ++ ls1)%list. unfold writes in *.
        rewrite omap_app, length_app. lia.
    + injection Hrun as <- <- <-.
      apply runner_step_None in Hstep as [->|[e ->]]; (split; [eauto|cbn; lia]).
Qed.

(** X14. Whatever the store does, a call of [fake_ai_processing] comes to
    an end after at most 20 effects, of which at most 7 are writes: there
    is no retry. It returns normally unless the update in its [except]
    clause raised, and then the exception that leaves it is one the store
    raised; with a store that never fails the call always returns,
    whether the job has a record or not. *)
Theorem fake_ai_processing_ends job_id input_path faults w :
  let '(ls, p, _) := fake_ai_processing job_id input_path faults w in
  (p = Returned ∨ ∃ e, p = Raised e ∧ Some e ∈ faults) ∧
  (List.length ls ≤ 20)%nat ∧
  (List.length (writes ls) ≤ 7)%nat.
Proof.
  unfold fake_ai_processing.
  destruct (run _ _ _ _ _ w) as [[ls p] w'] eqn:Hrun.
  destruct (run_ends _ _ _ _ _ _ _ _ _ (Nat.le_refl _) Hrun) as (Hend & Hlen & Hw).
  split; [|done].
  destruct Hend as [->|(e & -> & [|])]; [by left|done|right; eauto].
Qed.

Lemma pc_doc_fuel p d : pc_doc p d → (pc_fuel p ≤ 21)%nat.
Proof.
  assert (Hlen : ∀ pre rest : list (string * Z),
            steps = (pre ++ rest)%list → (List.length rest ≤ 6)%nat).
  { intros pre rest H. apply (f_equal List.length) in H.
    rewrite length_app in H. cbn in H. lia. }
  destruct p as [rest|oid step prog rest|rest|e| |e]; cbn [pc_doc pc_fuel].
  - intros (pre & H%Hlen & _). lia.
  - intros (_ & pre & H%Hlen & _). cbn [List.length] in H. lia.
  - intros (pre & H%Hlen & _). lia.
  - lia.
  - lia.
  - lia.
Qed.

(** X15. Every scheduled run, taken to its end from any reachable state
    and whatever the store does on the way, ends in one of two ways: it
    returns, and its job is then completed or failed; or the update of
    its [except] clause raised, and its job is then still queued or
    processing, with nothing left to move it. *)
Theorem run_to_end_outcome w j t faults :
  reachable w →
  tasks w !! j = Some t →
  ∃ t' d',
    tasks (sys_run 21 j faults w) !! j = Some t' ∧
    d' ∈ jobs (sys_run 21 j faults w) ∧
    job_key d' = Some (VStr j) ∧
    ((task_pc t' = Returned ∧ terminal d') ∨
     ((∃ e, task_pc t' = Raised e) ∧ ¬ terminal d' ∧
      runner_step j (task_input t') None (task_pc t') (sys_run 21 j faults w) = None)).
Proof.
  intros Hw Ht.
  pose proof (reachable_sys_run 21 j faults w Hw) as Hw'.
  destruct (inv_my_doc w j t (inv_reachable w Hw) Ht) as (d & _ & _ & Hpc).
  apply pc_doc_fuel in Hpc.
  revert Hw'. unfold sys_run. rewrite Ht.
  destruct (run 21 j (task_input t) faults (task_pc t) w) as [[ls p'] w2] eqn:Hrun.
  intros Hw'.
  set (w' := set_tasks (insert j (Task (task_input t) p')) w2) in *.
  assert (Ht' : tasks w' !! j = Some (Task (task_input t) p')) by apply lookup_insert_eq.
  destruct (inv_my_doc w' j _ (inv_reachable w' Hw') Ht') as (d' & Hd' & Hk' & Hpc').
  exists (Task (task_input t) p'), d'. split; [done|]. split; [done|]. split; [done|].
  cbn [task_pc task_input] in *.
  destruct (run_finishes 21 j (task_input t) faults (task_pc t) w ls p' w2 Hpc Hrun)
    as [->|[e ->]]; cbn [pc_doc] in Hpc'.
  - left. split; [done|]. unfold terminal.
    destruct Hpc' as [(-> & _)|(-> & _)]; auto.
  - right. split; [by exists e|].
    destruct Hpc' as (pre & rest & _ & Hprog).
    split; [by eapply progressed_not_terminal | done].
Qed.

Lemma run_to_end_outcome_witness :
  ∃ t' d',
    tasks (sys_run 21 "j1" [] w_found) !! "j1" = Some t' ∧
    d' ∈ jobs (sys_run 21 "j1" [] w_found) ∧
    job_key d' = Some (VStr "j1") ∧
    ((task_pc t' = Returned ∧ terminal d') ∨
     ((∃ e, task_pc t' = Raised e) ∧ ¬ terminal d' ∧
      runner_step "j1" (task_input t') None (task_pc t') (sys_run 21 "j1" [] w_found) = None)).
Proof.
  eapply (run_to_end_outcome w_found "j1" _ []).
  - exact reachable_w_found.
  - by vm_compute.
Defined.

(** X16. There is no watchdog: once the update of the [except] clause of a
    job's run has raised, no step of the system moves that job again. Its
    run stays ended and its record stays as it is, queued or processing,
    whatever happens next. *)
Theorem stuck_after_raise w w' j t e i d :
  reachable w →
  tasks w !! j = Some t →
  task_pc t = Raised e →
  jobs w !! i = Some d →
  job_key d = Some (VStr j) →
  sys_step w w' →
  tasks w' !! j = Some t ∧ jobs w' !! i = Some d ∧ ¬ terminal d.
Proof.
  intros Hw Ht Hpc Hi Hk Hstep. pose proof (inv_reachable w Hw) as Hinv.
  assert (Hd : d ∈ jobs w) by by eapply list_elem_of_lookup_2.
  split; [|split].
  - destruct Hstep; try done.
    + destruct H as [_ Hnone].
      apply upload_video_effect in H1 as [[_ ->]|(data & t1 & _ & -> & _)]; [done|].
      rewrite lookup_insert_ne; [done|]. intros ->. congruence.
    + by apply waitlist_signup_effect in H0 as [_ ->].
    + by rewrite (get_job_effect _ _ _ _ _ H).
    + by injection H as _ <-.
    + cbn [set_tasks tasks].
      assert (tasks w' = tasks w) as ->.
      { destruct (task_pc t0) as [[|[step prog] rest]|oid step prog rest|rest|e0| |e0],
          fault as [e'|]; cbn [runner_step] in H0; try done;
          try (destruct (find_one _ _ _)); by injection H0 as <- <- <-. }
      rewrite lookup_insert_ne; [done|]. intros ->.
      assert (t0 = t) as -> by congruence. by rewrite Hpc in H0.
  - destruct (sys_step_jobs w w' Hinv Hstep)
      as [->|[(oid & data & -> & _)
             |(j0 & t0 & fault & flt & upd & p' & w0 & Ht0 & Hrun & -> & Hown)]].
    + done.
    + rewrite lookup_app_l; [done|]. by eapply lookup_lt_Some.
    + rewrite list_lookup_fmap, Hi. cbn.
      destruct (matches flt d) eqn:Hm; [|done].
      destruct (Hown d Hd Hm) as [Hk0 _].
      assert (j0 = j) as -> by congruence.
      assert (t0 = t) as -> by congruence. by rewrite Hpc in Hrun.
  - destruct (inv_docs w Hinv d Hd) as (j0 & t0 & Hk0 & Ht0 & Hpc0 & _).
    assert (j0 = j) as -> by congruence.
    assert (t0 = t) as -> by congruence.
    rewrite Hpc in Hpc0. destruct Hpc0 as (pre & rest & _ & Hprog).
    by eapply progressed_not_terminal.
Qed.

Lemma stuck_after_raise_witness :
  ∃ t d,
    tasks w_raised !! "j1" = Some t ∧
    task_pc t = Raised (PyMongoError "still down") ∧
    jobs w_raised !! 0%nat = Some d ∧
    job_key d = Some (VStr "j1") ∧
    tasks (set_clock (fun t => t + 60000) w_raised) !! "j1" = Some t ∧
    jobs (set_clock (fun t => t + 60000) w_raised) !! 0%nat = Some d ∧
    ¬ terminal d.
Proof.
  eexists _, _.
  split; [by vm_compute|]. split; [by vm_compute|].
  split; [by vm_compute|]. split; [by vm_compute|].
  eapply (stuck_after_raise w_raised _ "j1" _ _ 0).
  - apply reachable_sys_run, reachable_uploaded.
  - by vm_compute.
  - by vm_compute.
  - by vm_compute.
  - by vm_compute.
  - by apply step_tick.
Defined.

(** ** Further properties: the diagnostic endpoint *)

(** X17. What [test_database] reports, whatever the import and the listing
    do. [database_url] and [database_name] tell only whether the two
    environment variables are set: what the handler writes to them while
    it inspects the handle (the handle's name included) is overwritten
    before it returns. [connection_status] is Connected exactly when the
    module gave a handle. [collections] holds the first ten names of the
    listing, and is empty when there is no handle or the listing
    raised. *)
Theorem test_database_reports imp env_url env_name :
  let r := test_database imp env_url env_name in
  r !! "backend" = Some (VStr "✅ Running") ∧
  r !! "database_url" = Some (VStr (if truthy env_url then "✅ Set" else "❌ Not Set")) ∧
  r !! "database_name" = Some (VStr (if truthy env_name then "✅ Set" else "❌ Not Set")) ∧
  r !! "connection_status" =
    Some (VStr (match imp with Imported (Some _) => "Connected" | _ => "Not Connected" end)) ∧
  r !! "collections" =
    Some (VList (match imp with
                 | Imported (Some _db) =>
                     match list_collection_names _db with
                     | Ok collections => take 10 collections
                     | Raise _ => []
                     end
                 | _ => []
                 end)) ∧
  ∃ names, r !! "collections" = Some (VList names) ∧ (List.length names ≤ 10)%nat.
Proof.
  intros r.
  assert (Hcoll : r !! "collections" =
    Some (VList (match imp with
                 | Imported (Some _db) =>
                     match list_collection_names _db with
                     | Ok collections => take 10 collections
                     | Raise _ => []
                     end
                 | _ => []
                 end))).
  { unfold r, test_database.
    destruct imp as [|e|[[hname [collections|e]]|]]; cbn [list_collection_names handle_name];
      repeat (rewrite lookup_insert_eq || rewrite lookup_insert_ne by discriminate);
      by vm_compute. }
  split; [|split; [|split; [|split; [|split]]]].
  - unfold r, test_database.
    destruct imp as [|e|[[hname [collections|e]]|]]; cbn [list_collection_names handle_name];
      repeat (rewrite lookup_insert_eq || rewrite lookup_insert_ne by discriminate);
      by vm_compute.
  - unfold r, test_database. rewrite lookup_insert_ne by discriminate.
    by rewrite lookup_insert_eq.
  - unfold r, test_database. by rewrite lookup_insert_eq.
  - unfold r, test_database.
    destruct imp as [|e|[[hname [collections|e]]|]]; cbn [list_collection_names handle_name];
      repeat (rewrite lookup_insert_eq || rewrite lookup_insert_ne by discriminate);
      by vm_compute.
  - exact Hcoll.
  - eexists. split; [exact Hcoll|].
    destruct imp as [|e|[[hname [collections|e]]|]]; cbn [list_collection_names];
      rewrite ?length_take; cbn [List.length]; lia.
Qed.

(** ** Further properties: the failure update *)

(** X18. No rollback. Whatever step of the system takes a record to status
    failed, from a reachable state, that step writes the status and the
    error text and nothing else: progress, current step, updated_at and
    every other field of the record stay as the last successful write
    left them, and the record had no render locator. *)
Theorem failure_keeps_progress w w' i d d' :
  reachable w → sys_step w w' →
  jobs w !! i = Some d → jobs w' !! i = Some d' →
  d' ≠ d → status d' = Some (VStr "failed") →
  (∃ msg, fields d' !! "error" = Some (VStr msg)) ∧
  fields d' !! "render_url" = Some VNone ∧
  ∀ k, k ∉ ["status"; "error"] → fields d' !! k = fields d !! k.
Proof.
  intros Hw Hstep Hi Hi' Hne Hfailed. pose proof (inv_reachable w Hw) as Hinv.
  destruct (sys_step_record w w' i d Hinv Hstep Hi)
    as [Hsame|(j & upd & _ & Hupd & Hcase)]; [congruence|].
  assert (d' = apply_set upd d) as -> by congruence.
  destruct Hcase as [(step & prog & pre & rest & _ & _ & ->)
                    |[(_ & ->)|(e & pre & rest & _ & Hprog & ->)]].
  - revert Hfailed. by fields_simpl.
  - revert Hfailed. by fields_simpl.
  - apply progressed_nonterminal in Hprog as [Hr _].
    split; [exists (str e); by fields_simpl|].
    split; [revert Hr; by fields_simpl|].
    intros k Hk. apply fields_apply_set_ne. cbn. revert Hk.
    rewrite !elem_of_cons, !elem_of_nil. tauto.
Qed.

Lemma failure_keeps_progress_witness :
  ∃ d d',
    jobs w_except !! 0%nat = Some d ∧
    jobs (sys_run 1 "j1" [] w_except) !! 0%nat = Some d' ∧
    d' ≠ d ∧ status d' = Some (VStr "failed") ∧
    (∃ msg, fields d' !! "error" = Some (VStr msg)) ∧
    fields d' !! "render_url" = Some VNone ∧
    ∀ k, k ∉ ["status"; "error"] → fields d' !! k = fields d !! k.
Proof.
  eexists _, _.
  split; [by vm_compute|]. split; [by vm_compute|].
  assert (Hst : ∀ a b : document, status a ≠ status b → a ≠ b) by (intros a b H ->; done).
  split; [apply Hst; by vm_compute|]. split; [by vm_compute|].
  eapply (failure_keeps_progress w_except (sys_run 1 "j1" [] w_except) 0).
  - apply reachable_sys_run, reachable_uploaded.
  - eapply sys_step_sys_run_1; by vm_compute.
  - by vm_compute.
  - by vm_compute.
  - apply Hst. by vm_compute.
  - by vm_compute.
Defined.
